(** * Algotext, lab07: a shallow embedding of the regular-expression automaton

    The Python package [lab07/automaton] compiles a restricted regular
    expression into a Thompson NFA ([Automaton]) made of mutable [State]
    objects, and simulates it.  This file embeds

    - [valid_characters.py]: the character tables, as boolean tests on
      one-character strings;
    - [state.py]: a [State] is an index into a store of transition tables;
      a table is a Python dict (label -> list of targets) kept as an
      association list in insertion order, with the [defaultdict]
      auto-insertion of [__getitem__] written out;
    - [regex_iterator.py]: validation, canonicalisation and the cursor;
    - [automaton.py]: combinators, the recursive-descent parser, the
      epsilon-cycle check, [__closure], [__trans], [test_word],
      [__matching] and [matching].

    Loops whose termination the code does not guarantee (the queue of
    [__closure], the parser, the rewriting loop) take a [fuel] argument;
    running out of fuel yields [None], as does a Python exception. *)

From Stdlib Require Import String Ascii List ZArith Bool Lia ListDec Sorted.
Import ListNotations.
Open Scope string_scope.
Open Scope Z_scope.

(** ** Option monad used for exceptions and exhausted fuel *)

Notation "x <- c1 ;; c2" :=
  (match c1 with Some x => c2 | None => None end)
  (at level 61, c1 at next level, right associativity).
Notation "' p <- c1 ;; c2" :=
  (match c1 with Some p => c2 | None => None end)
  (at level 61, p pattern, c1 at next level, right associativity).

(** ** Python strings *)

Module Py.

(** A Python character is a string of length one. *)
Fixpoint chars (s : string) : list string :=
  match s with
  | EmptyString => []
  | String c s' => String c EmptyString :: chars s'
  end.

Definition len (s : string) : Z := Z.of_nat (String.length s).

(** Index normalisation of slices: negative indices count from the end,
    then the index is clamped into [0, len]. *)
Definition norm (n i : Z) : Z :=
  let j := if i <? 0 then i + n else i in
  Z.max 0 (Z.min j n).

(** [s[a:b]] *)
Definition slice (s : string) (a b : Z) : string :=
  let n := len s in
  let a' := norm n a in
  let b' := norm n b in
  if a' <? b' then substring (Z.to_nat a') (Z.to_nat (b' - a')) s else "".

(** [s[a:]] *)
Definition slice_from (s : string) (a : Z) : string := slice s a (len s).

(** [s[i]]; [None] is an [IndexError]. *)
Definition get (s : string) (i : Z) : option string :=
  let n := len s in
  let j := if i <? 0 then i + n else i in
  if (0 <=? j) && (j <? n) then
    match String.get (Z.to_nat j) s with
    | Some c => Some (String c EmptyString)
    | None => None
    end
  else None.

(** [needle in hay] for two strings: substring test. *)
Fixpoint str_in (needle hay : string) : bool :=
  String.prefix needle hay ||
  match hay with
  | EmptyString => false
  | String _ h' => str_in needle h'
  end.

(** [x in S] for a set [S] of strings. *)
Definition mem (x : string) (S : list string) : bool :=
  existsb (String.eqb x) S.

(** [sep.join(l)] *)
Fixpoint join (sep : string) (l : list string) : string :=
  match l with
  | [] => ""
  | [x] => x
  | x :: r => x ++ sep ++ join sep r
  end.

End Py.

(** ** valid_characters.py *)

Module ValidCharacters.

Definition SPACE := " ".
Definition ANY_SYMBOL := ".".
Definition DIGITS_SET := Py.chars "0123456789".
Definition ASCII_SET :=
  Py.chars "abcdefghijklmnopqrstuvwxyzABCDEFGHIJKLMNOPQRSTUVWXYZ".
Definition VALID_SYMBOLS := (ASCII_SET ++ DIGITS_SET ++ [SPACE; ANY_SYMBOL])%list.
Definition PARENTHESES := Py.chars "()[]".
Definition KLEENE_CLOSURE := "*".
Definition ONE_OR_NONE := "?".
Definition ONE_CLOSURE := "+".
Definition META_SYMBOLS := [KLEENE_CLOSURE; ONE_OR_NONE; ONE_CLOSURE].
Definition BACK_SLASH := "\".
Definition DIGITS := "d".
Definition DIGITS_CLASS := "\d".
Definition WORD := "w".
Definition WORD_CLASS := "\w".
Definition ALPHA := "a".
Definition ALPHA_CLASS := "\a".
Definition CLASS_SYMBOLS := [DIGITS; WORD; ALPHA].
Definition ALL_SYMBOLS :=
  (VALID_SYMBOLS ++ PARENTHESES ++ META_SYMBOLS ++ CLASS_SYMBOLS
   ++ [BACK_SLASH; ANY_SYMBOL])%list.
Definition STD_EPSILON := "?".
Definition STD_SUM := "+".
Definition STD_KLEENE := "*".

End ValidCharacters.

Module VC := ValidCharacters.

(** ** Python dicts as association lists in insertion order *)

Section Dict.
Context {K V : Type} (keqb : K -> K -> bool).

Definition dict := list (K * V).

Fixpoint dict_get (d : dict) (k : K) : option V :=
  match d with
  | [] => None
  | (k', v) :: d' => if keqb k k' then Some v else dict_get d' k
  end.

Definition dict_mem (d : dict) (k : K) : bool :=
  match dict_get d k with Some _ => true | None => false end.

(** [d[k] = v]: an existing key keeps its position, a new key goes last. *)
Fixpoint dict_set (d : dict) (k : K) (v : V) : dict :=
  match d with
  | [] => [(k, v)]
  | (k', v') :: d' =>
      if keqb k k' then (k', v) :: d' else (k', v') :: dict_set d' k v
  end.

End Dict.

(** ** Python sets of integers (the match markers) *)

Definition zset := list Z.

Definition zmem (x : Z) (s : zset) : bool := existsb (Z.eqb x) s.

(** [a.union(b)] *)
Definition zunion (a b : zset) : zset :=
  (a ++ filter (fun x => negb (zmem x a)) b)%list.

(** [min(s)]; [None] is the [ValueError] of an empty set. *)
Definition zmin (s : zset) : option Z :=
  match s with
  | [] => None
  | x :: r => Some (fold_left Z.min r x)
  end.

(** ** state.py *)

(** A label: a literal character, [EPSILON = ''] or a class marker. *)
Definition label := string.
Definition EPSILON : label := "".

(** The [trans] defaultdict of one state. *)
Definition table := @dict label (list nat).

(** All states ever created; a state is its index. *)
Definition store := list table.

Fixpoint list_set {A} (l : list A) (n : nat) (x : A) : list A :=
  match l, n with
  | [], _ => []
  | _ :: l', O => x :: l'
  | y :: l', S n' => y :: list_set l' n' x
  end.

Definition state_table (st : store) (s : nat) : table := nth s st [].

(** [State()] *)
Definition new_state (st : store) : nat * store := (length st, (st ++ [[]])%list).

(** [item in state] *)
Definition st_contains (st : store) (s : nat) (l : label) : bool :=
  dict_mem String.eqb (state_table st s) l.

(** [state[key] = value], i.e. [self.trans[key] += [value]]. *)
Definition st_setitem (st : store) (s : nat) (l : label) (v : nat) : store :=
  let t := state_table st s in
  let old := match dict_get String.eqb t l with Some x => x | None => [] end in
  list_set st s (dict_set String.eqb t l (old ++ [v])%list).

(** [state[item]]: a missing key is inserted with [[]] by the defaultdict. *)
Definition st_getitem (st : store) (s : nat) (l : label) : list nat * store :=
  let t := state_table st s in
  match dict_get String.eqb t l with
  | Some x => (x, st)
  | None => ([], list_set st s (t ++ [(l, [])])%list)
  end.

(** [state.get(key, default)] *)
Definition st_get (st : store) (s : nat) (l : label) (dflt : list nat)
  : list nat :=
  match dict_get String.eqb (state_table st s) l with
  | Some x => x
  | None => dflt
  end.

(** ** automaton.py: fragments and combinators *)

Record automaton := mkAutomaton {
  initial : nat;
  final : nat;
  enumeration_proper : bool
}.

(** [Automaton(letter)] *)
Definition Automaton (st : store) (letter : label) : automaton * store :=
  let '(i, st1) := new_state st in
  let '(f, st2) := new_state st1 in
  (mkAutomaton i f false, st_setitem st2 i letter f).

(** [__perform_star] after the optional [deepcopy]. *)
Definition perform_star_body (st : store) (a : automaton) : automaton * store :=
  let old_initial := initial a in
  let old_final := final a in
  let '(ni, st1) := new_state st in
  let '(nf, st2) := new_state st1 in
  let st3 := st_setitem st2 ni EPSILON old_initial in
  let st4 := st_setitem st3 ni EPSILON nf in
  let st5 := st_setitem st4 old_final EPSILON ni in
  let st6 := st_setitem st5 old_final EPSILON nf in
  (mkAutomaton ni nf false, st6).

(** [__perform_concatenation] after the optional copies. *)
Definition perform_concatenation_body (st : store) (a1 a2 : automaton)
  : automaton * store :=
  let st1 := st_setitem st (final a1) EPSILON (initial a2) in
  (mkAutomaton (initial a1) (final a2) false, st1).

(** [__perform_alternative] after the optional copies. *)
Definition perform_alternative_body (st : store) (a1 a2 : automaton)
  : automaton * store :=
  let old_initial := initial a1 in
  let old_final := final a1 in
  let '(ni, st1) := new_state st in
  let '(nf, st2) := new_state st1 in
  let st3 := st_setitem st2 ni EPSILON old_initial in
  let st4 := st_setitem st3 ni EPSILON (initial a2) in
  let st5 := st_setitem st4 old_final EPSILON nf in
  let st6 := st_setitem st5 (final a2) EPSILON nf in
  (mkAutomaton ni nf false, st6).

(** [deepcopy(automaton)]: the states reachable from [initial] and [final]
    are duplicated with fresh indices, sharing preserved. *)
Definition successors (st : store) (s : nat) : list nat :=
  flat_map snd (state_table st s).

Definition add_new (R : list nat) (l : list nat) : list nat :=
  fold_left (fun acc x => if existsb (Nat.eqb x) acc then acc else (acc ++ [x])%list)
    l R.

Fixpoint reach_iter (n : nat) (st : store) (R : list nat) : list nat :=
  match n with
  | O => R
  | S n' => reach_iter n' st (add_new R (flat_map (successors st) R))
  end.

Fixpoint index_of (x : nat) (l : list nat) : nat :=
  match l with
  | [] => O
  | y :: l' => if Nat.eqb x y then O else S (index_of x l')
  end.

Definition deepcopy (st : store) (a : automaton) : automaton * store :=
  let R := reach_iter (S (length st)) st (add_new [] [initial a; final a]) in
  let base := length st in
  let remap s := (base + index_of s R)%nat in
  let copy_table (t : table) : table :=
    map (fun '(l, ts) => (l, map remap ts)) t in
  (mkAutomaton (remap (initial a)) (remap (final a)) (enumeration_proper a),
   (st ++ map (fun s => copy_table (state_table st s)) R)%list).

Definition copy_if (copy : bool) (st : store) (a : automaton) : automaton * store :=
  if copy then deepcopy st a else (a, st).

(** [Automaton.__perform_star(automaton, copy)] *)
Definition perform_star (st : store) (a : automaton) (copy : bool)
  : automaton * store :=
  let '(a', st') := copy_if copy st a in perform_star_body st' a'.

(** [Automaton.__perform_concatenation(aut1, aut2, copy_fst, copy_snd)] *)
Definition perform_concatenation (st : store) (a1 a2 : automaton)
  (copy_fst copy_snd : bool) : automaton * store :=
  let '(b1, st1) := copy_if copy_fst st a1 in
  let '(b2, st2) := copy_if copy_snd st1 a2 in
  perform_concatenation_body st2 b1 b2.

(** [Automaton.__perform_alternative(aut1, aut2, copy_fst, copy_snd)] *)
Definition perform_alternative (st : store) (a1 a2 : automaton)
  (copy_fst copy_snd : bool) : automaton * store :=
  let '(b1, st1) := copy_if copy_fst st a1 in
  let '(b2, st2) := copy_if copy_snd st1 a2 in
  perform_alternative_body st2 b1 b2.

(** ** automaton.py: simulation *)

(** A [state_dict]: active states with their marker sets. *)
Definition frontier := @dict nat zset.

(** One pass of [for next_state in state[State.EPSILON]: ...] *)
Definition closure_push (ix : zset) (dq : frontier * list nat) (t : nat)
  : frontier * list nat :=
  let '(d, q) := dq in
  match dict_get Nat.eqb d t with
  | None => (dict_set Nat.eqb d t ix, (q ++ [t])%list)
  | Some old => (dict_set Nat.eqb d t (zunion old ix), (q ++ [t])%list)
  end.

(** The [while not queue.empty()] loop of [__closure]; one unit of fuel per
    dequeued state. *)
Fixpoint closure_loop (fuel : nat) (st : store) (d : frontier) (q : list nat)
  : option (frontier * store) :=
  match q with
  | [] => Some (d, st)
  | s :: q' =>
      match fuel with
      | O => None
      | S f =>
          ix <- dict_get Nat.eqb d s ;;
          if st_contains st s EPSILON then
            let '(ts, st1) := st_getitem st s EPSILON in
            let '(d1, q1) := fold_left (closure_push ix) ts (d, q') in
            closure_loop f st1 d1 q1
          else closure_loop f st d q'
      end
  end.

(** [Automaton.__closure(state_dict)] *)
Definition closure (fuel : nat) (st : store) (d : frontier)
  : option (frontier * store) :=
  closure_loop fuel st d (map fst d).

(** The effective label of one state in [__trans].  [letter] is the loop
    variable of the enclosing function, which this body overwrites; the
    new value of [letter] is returned with the label. *)
Definition trans_label (st : store) (s : nat) (letter : string)
  : string * string :=
  let alternative_letter := letter in
  let letter := if st_contains st s VC.ANY_SYMBOL then VC.ANY_SYMBOL else letter in
  let alternative_letter :=
    if st_contains st s VC.DIGITS_CLASS && Py.mem letter VC.DIGITS_SET
    then VC.DIGITS_CLASS else alternative_letter in
  let alternative_letter :=
    if st_contains st s VC.WORD_CLASS &&
       (Py.str_in letter VC.DIGITS_CLASS || Py.mem letter VC.ASCII_SET)
    then VC.WORD_CLASS else alternative_letter in
  let alternative_letter :=
    if st_contains st s VC.ALPHA_CLASS && Py.mem letter VC.ASCII_SET
    then VC.ALPHA_CLASS else alternative_letter in
  (alternative_letter, letter).

Definition trans_push (ix : zset) (r : frontier) (t : nat) : frontier :=
  match dict_get Nat.eqb r t with
  | Some old => dict_set Nat.eqb r t (zunion old ix)
  | None => dict_set Nat.eqb r t ix
  end.

(** The [for state in state_dict.keys()] loop of [__trans]. *)
Fixpoint trans_loop (st : store) (items : frontier) (letter : string)
  (result_dict : frontier) : frontier * store :=
  match items with
  | [] => (result_dict, st)
  | (s, ix) :: rest =>
      let '(alternative_letter, letter') := trans_label st s letter in
      if st_contains st s alternative_letter then
        let '(ts, st1) := st_getitem st s alternative_letter in
        trans_loop st1 rest letter' (fold_left (trans_push ix) ts result_dict)
      else trans_loop st rest letter' result_dict
  end.

(** [Automaton.__trans(state_dict, letter)] *)
Definition trans (st : store) (d : frontier) (letter : string)
  : frontier * store :=
  trans_loop st d letter [].

Fixpoint test_word_loop (fuel : nat) (st : store) (d : frontier)
  (word : list string) : option (frontier * store) :=
  match word with
  | [] => Some (d, st)
  | letter :: rest =>
      let '(td, st1) := trans st d letter in
      '(d', st2) <- closure fuel st1 td ;;
      test_word_loop fuel st2 d' rest
  end.

(** [Automaton.test_word(self, word)] *)
Definition test_word (fuel : nat) (st : store) (a : automaton) (word : string)
  : option (bool * store) :=
  '(d, st1) <- closure fuel st [(initial a, [0])] ;;
  '(d', st2) <- test_word_loop fuel st1 d (Py.chars word) ;;
  Some (dict_mem Nat.eqb d' (final a), st2).

(** The body of [for i, letter in enumerate(text)] in [__matching]: the new
    [state_dict], the store, and the pair [(start_idx + 1, i + 1)] written
    into [occurrences] when the body writes one. *)
Definition matching_step (fuel : nat) (a : automaton) (text : string)
  (i : Z) (letter : string) (st : store) (d : frontier)
  : option (frontier * store * option (Z * Z)) :=
  let '(td, st1) := trans st d letter in
  let td := match dict_get Nat.eqb td (initial a) with
            | Some s => dict_set Nat.eqb td (initial a) (zunion s [i])
            | None => dict_set Nat.eqb td (initial a) [i]
            end in
  '(d', st2) <- closure fuel st1 td ;;
  match dict_get Nat.eqb d' (final a) with
  | None => Some (d', st2, None)
  | Some markers =>
      start_idx <- zmin markers ;;
      let word_to_test := Py.slice text (start_idx + 1) (i + 1) in
      if String.eqb word_to_test "" then Some (d', st2, None)
      else
        '(ok, st3) <- test_word fuel st2 a word_to_test ;;
        if ok then Some (d', st3, Some (start_idx + 1, i + 1))
        else Some (d', st3, None)
  end.

Definition occ_record (occ : @dict Z Z) (r : option (Z * Z)) : @dict Z Z :=
  match r with
  | Some (s, e) => dict_set Z.eqb occ s e
  | None => occ
  end.

Fixpoint matching_loop (fuel : nat) (a : automaton) (text : string) (i : Z)
  (letters : list string) (st : store) (d : frontier) (occ : @dict Z Z)
  : option (@dict Z Z * store) :=
  match letters with
  | [] => Some (occ, st)
  | letter :: rest =>
      '(d', st', r) <- matching_step fuel a text i letter st d ;;
      matching_loop fuel a text (i + 1) rest st' d' (occ_record occ r)
  end.

(** [Automaton.__matching(self, text)] *)
Definition matching_dict (fuel : nat) (st : store) (a : automaton) (text : string)
  : option (@dict Z Z * store) :=
  '(d, st1) <- closure fuel st [(initial a, [-1])] ;;
  matching_loop fuel a text 0 (Py.chars text) st1 d [].

(** [Automaton.matching(self, text)]: the list
    [[(start, occurrences[start]) for start in occurrences.keys()]], which
    is the item list of the dict since its keys are distinct; the optional
    printing of the highlighted text does not touch the result. *)
Definition matching (fuel : nat) (st : store) (a : automaton) (text : string)
  : option (list (Z * Z) * store) :=
  '(occ, st1) <- matching_dict fuel st a text ;;
  Some (occ, st1).

(** [sorted(keys)] for integer keys: insertion sort. *)
Fixpoint insert_Z (x : Z) (l : list Z) : list Z :=
  match l with
  | [] => [x]
  | y :: r => if x <=? y then x :: l else y :: insert_Z x r
  end.

Definition sorted_Z (l : list Z) : list Z := fold_right insert_Z [] l.

Section Highlight.

(** [colored(s, color=color, attrs=attrs)] of termcolor, for the [color]
    and [attrs] given to [__highlight_found]. *)
Variable colored : string -> string.

(** The loop [for start_idx in sorted(occurrences.keys())] of
    [Automaton.__highlight_found]; [None] is a [KeyError].  The variable
    [rest_of_text] of the source is written and never read, so it has no
    counterpart here. *)
Fixpoint highlight_loop (text : string) (occurrences : @dict Z Z) (keys : list Z)
  (processed_text : string) (beginning : Z) : option string :=
  match keys with
  | [] => Some (processed_text ++ Py.slice_from text beginning)
  | start_idx :: keys' =>
      end_idx <- dict_get Z.eqb occurrences start_idx ;;
      let start_idx := if start_idx <? beginning then beginning else start_idx in
      let colored_pattern := colored (Py.slice text start_idx end_idx) in
      let processed_text :=
        processed_text ++ (Py.slice text beginning start_idx ++ colored_pattern) in
      highlight_loop text occurrences keys' processed_text end_idx
  end.

(** [Automaton.__highlight_found(text, occurrences, color, attrs)] *)
Definition highlight_found (text : string) (occurrences : @dict Z Z) : option string :=
  highlight_loop text occurrences (sorted_Z (map fst occurrences)) "" 0.

End Highlight.

(** ** regex_iterator.py: validation *)

(** The message returned with [False] by [__regex_correct]; the positions
    are the ones formatted into the message. *)
Inductive regex_error :=
| InvalidInSquare (pos : Z)     (* "Invalid symbol in parentheses [] at pos {i}" *)
| InvalidSymbol (pos : Z)       (* "Invalid symbol at pos {i}" *)
| EmptyRound (pos : Z)          (* "Empty parentheses () at pos {i - 1}" *)
| EmptySquare (pos : Z)         (* "Empty parentheses [] at pos {i - 1}" *)
| BadClassSymbol (pos : Z)      (* "Character \ not followed by valid class symbol at pos {i}" *)
| MetaInRow (pos : Z)           (* "Repetition meta symbols in a row at pos {i}" *)
| InvalidUse (pos : Z)          (* "Invalid use of symbol at pos {i}" *)
| NotEnclosed.                  (* "Some parentheses are not enclosed" *)

Definition regex_error_pos (e : regex_error) : option Z :=
  match e with
  | InvalidInSquare p | InvalidSymbol p | EmptyRound p | EmptySquare p
  | BadClassSymbol p | MetaInRow p | InvalidUse p => Some p
  | NotEnclosed => None
  end.

Definition opt_mem (o : option string) (S : list string) : bool :=
  match o with Some c => Py.mem c S | None => false end.

Definition opt_eqb (o : option string) (c : string) : bool :=
  match o with Some c' => String.eqb c' c | None => false end.

(** The loop variables of [__regex_correct]. *)
Record rc_vars := mkRcVars {
  parentheses_round : Z;
  parentheses_square : Z;
  in_square : bool;
  round_empty : bool;
  square_empty : bool
}.

(** The last check of the loop body. *)
Definition invalid_use_check (regex : string) (i : Z) (letter : string)
  (v : rc_vars) : rc_vars + regex_error :=
  if Py.mem letter VC.META_SYMBOLS && (i >? 0) &&
     (negb (opt_mem (Py.get regex (i - 1)) VC.VALID_SYMBOLS) &&
      negb (opt_eqb (Py.get regex (i - 1)) ")") &&
      negb (opt_eqb (Py.get regex (i - 1)) "]"))
  then inr (InvalidUse i)
  else inl v.

(** The body of [for i, letter in enumerate(regex)] in [__regex_correct]:
    the updated loop variables, or the message returned with [False]. *)
Definition regex_correct_body (regex : string) (i : Z) (letter : string)
  (v : rc_vars) : rc_vars + regex_error :=
  let '(mkRcVars parentheses_round parentheses_square in_square round_empty
          square_empty) := v in
  let round_empty :=
    if round_empty && negb (String.eqb letter ")") then false else round_empty in
  let square_empty :=
    if square_empty && negb (String.eqb letter "]") then false else square_empty in
  if in_square && negb (Py.mem letter VC.VALID_SYMBOLS)
     && negb (String.eqb letter "]")
  then inr (InvalidInSquare i) else
  if negb (Py.mem letter VC.ALL_SYMBOLS) then inr (InvalidSymbol i) else
  let '(round_empty, parentheses_round) :=
    if String.eqb letter "(" then (true, parentheses_round + 1)
    else (round_empty, parentheses_round) in
  if String.eqb letter ")" && round_empty then inr (EmptyRound (i - 1)) else
  let parentheses_round :=
    if String.eqb letter ")" then parentheses_round - 1 else parentheses_round in
  let '(square_empty, in_square, parentheses_square) :=
    if String.eqb letter "[" then (true, true, parentheses_square + 1)
    else (square_empty, in_square, parentheses_square) in
  if String.eqb letter "]" && square_empty then inr (EmptySquare (i - 1)) else
  let '(in_square, parentheses_square) :=
    if String.eqb letter "]" then (false, parentheses_square - 1)
    else (in_square, parentheses_square) in
  let v := mkRcVars parentheses_round parentheses_square in_square round_empty
             square_empty in
  if String.eqb letter VC.BACK_SLASH then
    if (Py.len regex =? i + 1)
       || negb (opt_mem (Py.get regex (i + 1)) VC.CLASS_SYMBOLS)
    then inr (BadClassSymbol i)
    else invalid_use_check regex i letter v
  else
    if Py.mem letter VC.META_SYMBOLS &&
       (((negb (Py.len regex =? i + 1)) &&
         opt_mem (Py.get regex (i + 1)) VC.META_SYMBOLS) || (i =? 0))
    then inr (MetaInRow i)
    else invalid_use_check regex i letter v.

Fixpoint regex_correct_loop (regex : string) (i : Z) (letters : list string)
  (v : rc_vars) : bool * regex_error :=
  match letters with
  | [] =>
      ((parentheses_square v =? parentheses_round v) &&
       (parentheses_round v =? 0), NotEnclosed)
  | letter :: rest =>
      match regex_correct_body regex i letter v with
      | inl v' => regex_correct_loop regex (i + 1) rest v'
      | inr e => (false, e)
      end
  end.

(** [RegexIterator.__regex_correct(regex)] *)
Definition regex_correct (regex : string) : bool * regex_error :=
  regex_correct_loop regex 0 (Py.chars regex) (mkRcVars 0 0 false false false).

(** ** regex_iterator.py: canonicalisation *)

(** [while (text[j] != ']'): j += 1] *)
Fixpoint find_square_close (fuel : nat) (text : string) (j : Z) : option Z :=
  match fuel with
  | O => None
  | S f =>
      c <- Py.get text j ;;
      if String.eqb c "]" then Some j else find_square_close f text (j + 1)
  end.

(** [while (num_of_parentheses): ...; j += 1] *)
Fixpoint find_round_close (fuel : nat) (text : string) (j n : Z) : option Z :=
  match fuel with
  | O => None
  | S f =>
      if n =? 0 then Some j else
      c <- Py.get text j ;;
      let n := if String.eqb c "(" then n + 1 else n in
      let n := if String.eqb c ")" then n - 1 else n in
      find_round_close f text (j + 1) n
  end.

Definition parenthesis_map := @dict Z Z.

Definition get_or (d : parenthesis_map) (k dflt : Z) : Z :=
  match dict_get Z.eqb d k with Some v => v | None => dflt end.

(** [RegexIterator.__convert_to_standard_re_helper(text)]: the rewritten
    text and the map [parenthesis_begin] from the index of a closing
    parenthesis to the index of its opening one.  [fuel] bounds the depth
    of recursion and, separately, the iterations of the [while] loop. *)
Fixpoint convert_helper (fuel : nat) (text : string)
  : option (string * parenthesis_map) :=
  match fuel with
  | O => None
  | S f =>
      let fix loop (lf : nat) (text : string) (i : Z) (pb : parenthesis_map)
        : option (string * parenthesis_map) :=
        match lf with
        | O => None
        | S lf' =>
          if i <? Py.len text then
            c <- Py.get text i ;;
            if String.eqb c "[" then
              j <- find_square_close fuel text (i + 1) ;;
              let pattern :=
                "(" ++ Py.join "+" (Py.chars (Py.slice text (i + 1) j)) ++ ")" in
              let text := Py.slice text 0 i ++ pattern ++ Py.slice_from text (j + 1) in
              let pb := dict_set Z.eqb pb (i - 1 + Py.len pattern) i in
              let i := i - 1 + Py.len pattern in
              loop lf' text (i + 1) pb
            else if String.eqb c "(" then
              j <- find_round_close fuel text (i + 1) 1 ;;
              '(pattern, par_begs) <- convert_helper f (Py.slice text (i + 1) (j - 1)) ;;
              let pb := fold_left
                (fun pb '(e, b) => dict_set Z.eqb pb (e + i + 1) (b + i + 1))
                par_begs pb in
              let text := Py.slice text 0 (i + 1) ++ pattern ++ Py.slice_from text (j - 1) in
              let pb := dict_set Z.eqb pb (i + 1 + Py.len pattern) i in
              let i := i + 1 + Py.len pattern in
              loop lf' text (i + 1) pb
            else if String.eqb c VC.ONE_CLOSURE then
              let beg_idx := get_or pb (i - 1) (i - 1) in
              let beg_idx :=
                if (i - 1 >? 0) && opt_eqb (Py.get text (i - 2)) "\"
                then beg_idx - 1 else beg_idx in
              let pattern := Py.slice text beg_idx i in
              let text := Py.slice text 0 beg_idx ++ pattern ++ pattern
                          ++ VC.STD_KLEENE ++ Py.slice_from text (i + 1) in
              let i := i + Py.len pattern in
              loop lf' text (i + 1) pb
            else if String.eqb c VC.ONE_OR_NONE then
              let beg_idx := get_or pb (i - 1) (i - 1) in
              let pattern := Py.slice text beg_idx i in
              let text := Py.slice text 0 beg_idx ++ "(" ++ pattern ++ VC.STD_SUM
                          ++ VC.STD_EPSILON ++ ")" ++ Py.slice_from text (i + 1) in
              let i := beg_idx + Py.len pattern + 3 in
              loop lf' text (i + 1) pb
            else loop lf' text (i + 1) pb
          else Some (text, pb)
        end
      in loop fuel text 0 []
  end.

(** [canonicalize]: [self.regex = self.__convert_to_standard_re_helper(self.regex)[0]] *)
Definition convert_to_standard_re (fuel : nat) (regex : string) : option string :=
  '(t, _) <- convert_helper fuel regex ;; Some t.

(** ** regex_iterator.py: the cursor, and automaton.py: the parser *)

Definition END_OF_STRING : string := String (ascii_of_nat 0) EmptyString.

(** The parser's state: the store of all states and the [RegexIterator]. *)
Record pstate := mkPState {
  ps_store : store;
  ps_regex : string;
  ps_idx : Z;
  ps_char : string
}.

Definition P (A : Type) := pstate -> option (A * pstate).

Definition p_ret {A} (x : A) : P A := fun s => Some (x, s).
Definition p_bind {A B} (m : P A) (k : A -> P B) : P B :=
  fun s => match m s with Some (x, s') => k x s' | None => None end.
Definition p_fail {A} : P A := fun _ => None.

Notation "x <-- m ;;; k" := (p_bind m (fun x => k))
  (at level 61, m at next level, right associativity).
Notation "m ;;;; k" := (p_bind m (fun _ => k))
  (at level 61, right associativity).

(** [regex.char] *)
Definition p_char : P string := fun s => Some (ps_char s, s).

(** [regex.next_char()], i.e. [self.char = next(self)] *)
Definition next_char : P unit := fun s =>
  if ps_idx s =? Py.len (ps_regex s) then
    Some (tt, mkPState (ps_store s) (ps_regex s) (ps_idx s) END_OF_STRING)
  else
    match Py.get (ps_regex s) (ps_idx s) with
    | Some c => Some (tt, mkPState (ps_store s) (ps_regex s) (ps_idx s + 1) c)
    | None => None
    end.

(** Run a store operation inside the parser. *)
Definition on_store {A} (f : store -> A * store) : P A := fun s =>
  let '(x, st') := f (ps_store s) in
  Some (x, mkPState st' (ps_regex s) (ps_idx s) (ps_char s)).

(** [__expr], [__term] and [__factor]; the combinators are called with
    [copy = False] as in the source. *)
Fixpoint p_expr (fuel : nat) : P automaton :=
  match fuel with
  | O => p_fail
  | S f =>
      a <-- p_term f ;;;
      let fix loop (lf : nat) (a : automaton) : P automaton :=
        match lf with
        | O => p_fail
        | S lf' =>
            c <-- p_char ;;;
            if String.eqb c VC.STD_SUM then
              next_char ;;;;
              b <-- p_term f ;;;
              a' <-- on_store (fun st => perform_alternative st a b false false) ;;;
              loop lf' a'
            else p_ret a
        end
      in loop fuel a
  end
with p_term (fuel : nat) : P automaton :=
  match fuel with
  | O => p_fail
  | S f =>
      a <-- p_factor f ;;;
      let fix loop (lf : nat) (a : automaton) : P automaton :=
        match lf with
        | O => p_fail
        | S lf' =>
            c <-- p_char ;;;
            if Py.mem c VC.VALID_SYMBOLS || String.eqb c "(" || String.eqb c "\"
            then
              b <-- p_factor f ;;;
              a' <-- on_store (fun st => perform_concatenation st a b false false) ;;;
              loop lf' a'
            else p_ret a
        end
      in loop fuel a
  end
with p_factor (fuel : nat) : P automaton :=
  match fuel with
  | O => p_fail
  | S f =>
      c <-- p_char ;;;
      a <-- (if String.eqb c VC.BACK_SLASH then
               next_char ;;;;
               c2 <-- p_char ;;;
               a <-- on_store (fun st => Automaton st (c ++ c2)) ;;;
               next_char ;;;;
               p_ret a
             else if String.eqb c VC.STD_EPSILON then
               a <-- on_store (fun st => Automaton st EPSILON) ;;;
               next_char ;;;;
               p_ret a
             else if Py.mem c VC.VALID_SYMBOLS then
               a <-- on_store (fun st => Automaton st c) ;;;
               next_char ;;;;
               p_ret a
             else if String.eqb c "(" then
               next_char ;;;;
               a <-- p_expr f ;;;
               c' <-- p_char ;;;
               (if String.eqb c' ")" then next_char else p_ret tt) ;;;;
               p_ret a
             else p_fail) ;;;
      c' <-- p_char ;;;
      if String.eqb c' VC.STD_KLEENE then
        a <-- on_store (fun st => perform_star st a false) ;;;
        next_char ;;;;
        p_ret a
      else p_ret a
  end.

(** ** automaton.py: the epsilon-cycle check *)

(** The states yielded by [__bfs_generator], in order. *)
Fixpoint bfs_loop (fuel : nat) (st : store) (visited queue out : list nat)
  : option (list nat) :=
  match queue with
  | [] => Some out
  | node :: q =>
      match fuel with
      | O => None
      | S f =>
          let '(visited, q) :=
            fold_left (fun '(vis, q) nbh =>
                         if existsb (Nat.eqb nbh) vis then (vis, q)
                         else ((vis ++ [nbh])%list, (q ++ [nbh])%list))
              (successors st node) (visited, q) in
          bfs_loop f st visited q (out ++ [node])%list
      end
  end.

Definition bfs_generator (fuel : nat) (st : store) (a : automaton)
  : option (list nat) :=
  bfs_loop fuel st [initial a] [initial a] [].

Definition nset_add (x : nat) (s : list nat) : list nat :=
  if existsb (Nat.eqb x) s then s else (s ++ [x])%list.

Definition nset_mem (x : nat) (s : list nat) : bool := existsb (Nat.eqb x) s.

(** [Automaton.__has_epsilon_cycle(node, visited, processed)], threading
    the two shared sets. *)
Fixpoint has_epsilon_cycle (fuel : nat) (st : store) (node : nat)
  (visited processed : list nat) : option (bool * list nat * list nat) :=
  match fuel with
  | O => None
  | S f =>
      let neighbours := st_get st node EPSILON [] in
      let visited := nset_add node visited in
      let fix loop (ns : list nat) (visited processed : list nat) :=
        match ns with
        | [] => Some (false, visited, nset_add node processed)
        | nbh :: ns' =>
            if nset_mem nbh processed then loop ns' visited processed
            else if nset_mem nbh visited then Some (true, visited, processed)
            else
              '(b, visited, processed) <- has_epsilon_cycle f st nbh visited processed ;;
              if b then Some (true, visited, processed)
              else loop ns' (nset_add nbh visited) processed
        end
      in loop neighbours visited processed
  end.

(** [Automaton.__is_acyclic(self)] *)
Definition is_acyclic (fuel : nat) (st : store) (a : automaton) : option bool :=
  nodes <- bfs_generator fuel st a ;;
  let fix loop (ns : list nat) (visited processed : list nat) :=
    match ns with
    | [] => Some true
    | node :: ns' =>
        if nset_mem node processed then loop ns' visited processed
        else
          '(b, visited, processed) <- has_epsilon_cycle fuel st node visited processed ;;
          if b then Some false else loop ns' visited processed
    end
  in loop nodes [] [].

(** [RegexIterator(regex)]: the empty regex and an invalid one raise
    [ValueError]; otherwise the canonical text. *)
Definition regex_iterator (fuel : nat) (regex : string) : option string :=
  if String.eqb regex "" then None else
  if fst (regex_correct regex) then convert_to_standard_re fuel regex else None.

(** [Automaton.build_from_regex(regex, check_correctness)], starting from
    the store [st] of the states that already exist. *)
Definition build_from_regex (fuel : nat) (st : store) (regex : string)
  (check_correctness : bool) : option (automaton * store) :=
  canon <- regex_iterator fuel regex ;;
  '(_, ps) <- next_char (mkPState st canon 0 END_OF_STRING) ;;
  '(a, ps) <- p_expr fuel ps ;;
  if check_correctness then
    ok <- is_acyclic fuel (ps_store ps) a ;;
    if ok then Some (a, ps_store ps) else None
  else Some (a, ps_store ps).

(** The fuel used for concrete runs. *)
Definition FUEL : nat := 200.

(** [Automaton.build_from_regex(regex)] on a fresh store. *)
Definition compile (regex : string) : option (automaton * store) :=
  build_from_regex FUEL [] regex true.

(** [automaton.test_word(word)] for the compiled [regex]. *)
Definition full_match (regex word : string) : option bool :=
  '(a, st) <- compile regex ;;
  '(b, _) <- test_word FUEL st a word ;;
  Some b.

(** [automaton.matching(text)] for the compiled [regex]. *)
Definition find_occurrences (regex text : string) : option (list (Z * Z)) :=
  '(a, st) <- compile regex ;;
  '(occ, _) <- matching FUEL st a text ;;
  Some occ.

(** ** Vocabulary of the statements *)

(** The recordings made by the scan of [__matching]: the pairs
    [(start_idx + 1, i + 1)] that the loop body writes into [occurrences],
    in scan order.  It runs the same [matching_step] as [matching_loop]. *)
Fixpoint scan_loop (fuel : nat) (a : automaton) (text : string) (i : Z)
  (letters : list string) (st : store) (d : frontier)
  : option (list (Z * Z)) :=
  match letters with
  | [] => Some []
  | letter :: rest =>
      '(d', st', r) <- matching_step fuel a text i letter st d ;;
      recs <- scan_loop fuel a text (i + 1) rest st' d' ;;
      Some (match r with Some p => p :: recs | None => recs end)
  end.

Definition scan_records (fuel : nat) (st : store) (a : automaton) (text : string)
  : option (list (Z * Z)) :=
  '(d, st1) <- closure fuel st [(initial a, [-1])] ;;
  scan_loop fuel a text 0 (Py.chars text) st1 d.

(** The first occurrences of the elements of a list, in order. *)
Fixpoint dedup_first (l : list Z) : list Z :=
  match l with
  | [] => []
  | x :: r => x :: filter (fun y => negb (Z.eqb y x)) (dedup_first r)
  end.

(** Epsilon edges, paths and reachability in a store. *)
Definition eps_succ (st : store) (s : nat) : list nat := st_get st s EPSILON [].

Fixpoint eps_path (st : store) (s : nat) (p : list nat) : Prop :=
  match p with
  | [] => True
  | t :: p' => In t (eps_succ st s) /\ eps_path st t p'
  end.

Definition eps_reach (st : store) (s t : nat) : Prop :=
  exists p, eps_path st s p /\ last p s = t.

(** A list of states in which the epsilon successors of each state come
    before it: the order in which [__has_epsilon_cycle] fills [processed]. *)
Definition eps_topo (st : store) (l : list nat) : Prop :=
  forall l1 x l2, l = (l1 ++ x :: l2)%list -> forall y, In y (eps_succ st x) -> In y l1.

(** Membership of a state, and of a marker at a state, in a [state_dict]. *)
Definition indom (d : frontier) (t : nat) : Prop := dict_get Nat.eqb d t <> None.

Definition has (d : frontier) (t : nat) (m : Z) : Prop :=
  exists ms, dict_get Nat.eqb d t = Some ms /\ In m ms.

(** The fragment of [Automaton("a")] built on an empty store. *)
Definition demo_store : store := [[("a", [1%nat])]; []].
Definition demo_a : automaton := mkAutomaton 0 1 false.

(** The store that [compile("ab*a")] builds. *)
Definition ab_star_a_store : store :=
  [[("a", [1%nat])]; [("", [4%nat])]; [("b", [3%nat])]; [("", [4%nat; 5%nat])];
   [("", [2%nat; 5%nat])]; [("", [6%nat])]; [("a", [7%nat])]; []].

(** A rank that drops along every epsilon edge of the store. *)
Definition rank_ok (st : store) (rank : nat -> nat) : bool :=
  forallb (fun s => forallb (fun t => Nat.ltb (rank t) (rank s)) (eps_succ st s))
    (seq 0 (length st)).

(** The store that [compile("(aa)+")] builds. *)
Definition aa_plus_store : store :=
  [[("a", [1%nat])]; [("", [2%nat])]; [("a", [3%nat])]; [("", [8%nat])];
   [("a", [5%nat])]; [("", [6%nat])]; [("a", [7%nat])]; [("", [8%nat; 9%nat])];
   [("", [4%nat; 9%nat])]; []].

Definition ab_star_a_rank (s : nat) : nat :=
  match s with 1%nat => 3%nat | 3%nat => 3%nat | 4%nat => 2%nat | 5%nat => 1%nat | _ => 0%nat end.

(** [m] is reachable from [x] along the edges of the store, any label. *)
(** A marker [m] at state [t] that a transition of a state of [d] explains. *)
Definition trans_explained (st : store) (d : frontier) (t : nat) (m : Z) : Prop :=
  exists s ix, In (s, ix) d /\ In t (successors st s) /\ In m ix.

Definition frontier_explained (st : store) (d : frontier) (r : frontier) : Prop :=
  forall t ms m, In (t, ms) r -> In m ms -> trans_explained st d t m.

Inductive succ_reach (st : store) (x : nat) : nat -> Prop :=
| succ_reach_refl : succ_reach st x x
| succ_reach_step y z : succ_reach st x y -> In z (successors st y) -> succ_reach st x z.

(** ** The public operators of [Automaton] *)

(** [a.star()] *)
Definition star (st : store) (a : automaton) : automaton * store :=
  perform_star st a true.

(** [a * b] *)
Definition mul (st : store) (a b : automaton) : automaton * store :=
  perform_concatenation st a b true true.

(** [a *= b] *)
Definition imul (st : store) (a b : automaton) : automaton * store :=
  perform_concatenation st a b false true.

(** [a + b] *)
Definition add (st : store) (a b : automaton) : automaton * store :=
  perform_alternative st a b true true.

(** [a += b] *)
Definition iadd (st : store) (a b : automaton) : automaton * store :=
  perform_alternative st a b false true.

(** The states of [st0] are kept, unchanged, at the front of [st]. *)
Definition extends (st0 st : store) : Prop := firstn (length st0) st = st0.

(** The number of occurrences of the character [c] in a list of characters. *)
Definition count_char (c : string) (l : list string) : Z :=
  Z.of_nat (length (filter (String.eqb c) l)).

(** * Concrete runs *)

(** Claim C1, as amended.  [find_occurrences(compile("ab*a"), "xaabay")] is [[(1, 3), (2, 5)]]:
    at [i = 2] the least marker at the final state is [0] and ["aa"] is
    confirmed, recording [occurrences[1] = 3]; at [i = 4] the least marker
    is [1] and ["aba"] is confirmed, recording [occurrences[2] = 5]. *)
Theorem find_occurrences_ab_star_a :
  find_occurrences "ab*a" "xaabay" = Some [(1, 3); (2, 5)].
Proof. vm_compute. reflexivity. Qed.

(** Claim C1 does not hold as stated: the result is not [[(1, 5)]]. *)
Lemma find_occurrences_ab_star_a_not_1_5 :
  find_occurrences "ab*a" "xaabay" = Some [(1, 3); (2, 5)] /\
  find_occurrences "ab*a" "xaabay" <> Some [(1, 5)].
Proof. vm_compute. split; [reflexivity | discriminate]. Qed.

(** Claim C2 (code defect).  The word-class test of [__trans] reads
    [letter in ValidCharacters.DIGITS_CLASS], a substring test against the
    two-character string ["\d"], instead of membership in [DIGITS_SET].  So
    a state with a [\w] transition takes the literal digit as its label,
    and [compile("\w")] rejects every single digit while accepting every
    single letter. *)
Theorem word_class_rejects_digits :
  trans_label [[(VC.WORD_CLASS, [1%nat])]; []] 0 "5" = ("5", "5") /\
  Forall (fun c => full_match "\w" c = Some false) VC.DIGITS_SET /\
  Forall (fun c => full_match "\w" c = Some true) VC.ASCII_SET.
Proof.
  split; [vm_compute; reflexivity|].
  cbv [VC.DIGITS_SET VC.ASCII_SET Py.chars].
  split; repeat (apply Forall_cons; [vm_compute; reflexivity|]); apply Forall_nil.
Qed.

(** Claim C3 (code defect).  [__trans] writes the wildcard into the loop
    variable [letter] instead of [alternative_letter]: the state that owns
    the [.] transition keeps the literal input symbol as its label, and
    every state iterated after it uses [.] as its label.  So [compile(".")]
    does not accept ["x"], and in [compile("[.a]")] (canonically
    ["(.+a)"], states 0 -.-> 1 and 2 -a-> 3) the label of state 2 on ["a"]
    depends on whether state 0 comes before it in the frontier. *)
Theorem trans_any_overwrites_letter :
  full_match "." "x" = Some false /\
  full_match "." "." = Some true /\
  full_match "a" "a" = Some true /\
  full_match "[.a]" "a" = Some false /\
  match compile "[.a]" with
  | Some (a, st) =>
      trans st [(2%nat, [0])] "a" = ([(3%nat, [0])], st) /\
      trans st [(0%nat, [0]); (2%nat, [0])] "a" = ([], st)
  | None => False
  end.
Proof.
  split; [vm_compute; reflexivity|]. split; [vm_compute; reflexivity|].
  split; [vm_compute; reflexivity|]. split; [vm_compute; reflexivity|].
  vm_compute. split; reflexivity.
Qed.

(** Claim C4 (code defect).  The [?] branch of
    [__convert_to_standard_re_helper] takes [X] to be the single character
    before [?]; unlike the [+] branch it does not step back over a
    preceding backslash.  So an escaped class followed by [?] is rewritten
    with the backslash left outside the group, while the same escape
    followed by [+] is duplicated whole.  The compiled automaton of
    ["\d?"] then reads the label ["\("], followed by [d] or nothing: it
    accepts the empty word but no digit. *)
Theorem convert_escape_optional :
  convert_to_standard_re FUEL "\d?" = Some "\(d+?)" /\
  convert_to_standard_re FUEL "\w?" = Some "\(w+?)" /\
  convert_to_standard_re FUEL "\a?" = Some "\(a+?)" /\
  convert_to_standard_re FUEL "\d+" = Some "\d\d*" /\
  full_match "\d?" "5" = Some false /\
  full_match "\d?" "" = Some true.
Proof. vm_compute. repeat split. Qed.

(** Claim C6, as amended.  [__regex_correct] rejects the four patterns;
    for ["a**"], ["[]"] and ["\x"] the message carries the 0-based
    positions 1, 0 and 0, while the unbalanced ["(a"] is only detected after
    the scan, with the message "Some parentheses are not enclosed", which
    carries no position. *)
Theorem regex_correct_rejections :
  regex_correct "(a" = (false, NotEnclosed) /\
  regex_correct "a**" = (false, MetaInRow 1) /\
  regex_correct "[]" = (false, EmptySquare 0) /\
  regex_correct "\x" = (false, BadClassSymbol 0) /\
  regex_iterator FUEL "(a" = None /\
  regex_iterator FUEL "a**" = None /\
  regex_iterator FUEL "[]" = None /\
  regex_iterator FUEL "\x" = None.
Proof. vm_compute. repeat split. Qed.

(** Claim C6 does not hold as stated: the rejection of ["(a"] carries no
    position. *)
Lemma regex_correct_unbalanced_no_position :
  regex_error_pos (snd (regex_correct "(a")) = None.
Proof. vm_compute. reflexivity. Qed.

(** Claim C8 does not hold as stated: on ["(aa)+"] and ["aaaa"] the scan
    records [(0, 2)], [(1, 3)] and then [(0, 4)], which overwrites the end
    of start [0] in place, so the ends of the result decrease. *)
Lemma find_occurrences_ends_not_increasing :
  find_occurrences "(aa)+" "aaaa" = Some [(0, 4); (1, 3)].
Proof. vm_compute. reflexivity. Qed.

(** * Stores: list and dict lemmas *)

Lemma length_list_set {A} (l : list A) n x : length (list_set l n x) = length l.
Proof. revert n; induction l as [|y l IH]; intros [|n]; simpl; auto. Qed.

Lemma nth_list_set_eq {A} (l : list A) n x d :
  (n < length l)%nat -> nth n (list_set l n x) d = x.
Proof.
  revert n; induction l as [|y l IH]; intros [|n] H; simpl in *; try lia; auto.
  apply IH; lia.
Qed.

Lemma nth_list_set_neq {A} (l : list A) n m x d :
  m <> n -> nth m (list_set l n x) d = nth m l d.
Proof.
  revert n m; induction l as [|y l IH]; intros [|n] [|m] H; simpl; auto; lia.
Qed.

Lemma list_set_nth_same {A} (l : list A) n d : list_set l n (nth n l d) = l.
Proof. revert n; induction l as [|y l IH]; intros [|n]; simpl; f_equal; auto. Qed.

Section DictLemmas.
Context {K V : Type} (keqb : K -> K -> bool).
Hypothesis keqb_spec : forall x y, keqb x y = true <-> x = y.

Lemma keqb_refl x : keqb x x = true.
Proof. apply keqb_spec; reflexivity. Qed.

Lemma dict_get_set (d : @dict K V) k k' v :
  dict_get keqb (dict_set keqb d k v) k' =
  if keqb k' k then Some v else dict_get keqb d k'.
Proof.
  induction d as [|[k0 v0] d IH]; simpl.
  - destruct (keqb k' k); reflexivity.
  - destruct (keqb k k0) eqn:E1; simpl.
    + apply keqb_spec in E1; subst k0.
      destruct (keqb k' k); reflexivity.
    + destruct (keqb k' k0) eqn:E2.
      * apply keqb_spec in E2; subst k0.
        destruct (keqb k' k) eqn:E3; [|reflexivity].
        apply keqb_spec in E3; subst. rewrite keqb_refl in E1. discriminate.
      * exact IH.
Qed.

Lemma dict_set_set (d : @dict K V) k v1 v2 :
  dict_set keqb (dict_set keqb d k v1) k v2 = dict_set keqb d k v2.
Proof.
  induction d as [|[k0 v0] d IH]; simpl.
  - rewrite keqb_refl; reflexivity.
  - destruct (keqb k k0) eqn:E; simpl; rewrite ?E, ?IH; reflexivity.
Qed.

Lemma dict_set_keys (d : @dict K V) k v :
  map fst (dict_set keqb d k v) =
  if existsb (keqb k) (map fst d) then map fst d else (map fst d ++ [k])%list.
Proof.
  induction d as [|[k0 v0] d IH]; simpl; [reflexivity|].
  destruct (keqb k k0); simpl; [reflexivity|].
  rewrite IH. destruct (existsb (keqb k) (map fst d)); reflexivity.
Qed.

End DictLemmas.

Lemma string_eqb_spec x y : String.eqb x y = true <-> x = y.
Proof. apply String.eqb_eq. Qed.

Lemma nat_eqb_spec x y : Nat.eqb x y = true <-> x = y.
Proof. apply Nat.eqb_eq. Qed.

Lemma z_eqb_spec x y : Z.eqb x y = true <-> x = y.
Proof. apply Z.eqb_eq. Qed.

Lemma state_table_setitem_eq st s l v :
  (s < length st)%nat ->
  state_table (st_setitem st s l v) s =
  dict_set String.eqb (state_table st s) l (st_get st s l [] ++ [v])%list.
Proof.
  intros H. unfold st_setitem, st_get, state_table.
  rewrite nth_list_set_eq by exact H. reflexivity.
Qed.

Lemma state_table_setitem_neq st s s' l v :
  s' <> s -> state_table (st_setitem st s l v) s' = state_table st s'.
Proof. intros H. unfold st_setitem, state_table. apply nth_list_set_neq, H. Qed.

Lemma length_setitem st s l v : length (st_setitem st s l v) = length st.
Proof. unfold st_setitem. apply length_list_set. Qed.

Lemma st_get_setitem_eq st s l v :
  (s < length st)%nat -> st_get (st_setitem st s l v) s l [] = (st_get st s l [] ++ [v])%list.
Proof.
  intros H. unfold st_get at 1. fold (state_table (st_setitem st s l v) s).
  rewrite state_table_setitem_eq by exact H.
  rewrite (dict_get_set String.eqb string_eqb_spec). rewrite String.eqb_refl. reflexivity.
Qed.

(** * Claim C5: the star combinator *)

(** Claim C5, as amended.  [__perform_star] (on the operand, or on its deep
    copy when [copy] is set) appends two states [n] (new initial) and
    [n + 1] (new final) to the store and adds exactly four epsilon edges:
    new-initial -> old-initial, new-initial -> new-final, and, because the
    source writes [old_final[State.EPSILON] = automaton.initial] after
    [automaton.initial] has been replaced, old-final -> new-initial and
    old-final -> new-final.  Every other state keeps its table; the result
    is the pair of new states. *)
Theorem perform_star_edges st a copy a' st' :
  copy_if copy st a = (a', st') ->
  (final a' < length st')%nat ->
  let n := length st' in
  exists st'',
    perform_star st a copy = (mkAutomaton n (S n) false, st'') /\
    length st'' = (n + 2)%nat /\
    state_table st'' n = [(EPSILON, [initial a'; S n])] /\
    state_table st'' (S n) = [] /\
    state_table st'' (final a') =
      dict_set String.eqb (state_table st' (final a')) EPSILON
        (st_get st' (final a') EPSILON [] ++ [n; S n])%list /\
    (forall s, s <> final a' -> (s < n)%nat -> state_table st'' s = state_table st' s).
Proof.
  intros Hc Hf n. unfold perform_star. rewrite Hc.
  unfold perform_star_body, new_state. simpl.
  set (st2 := ((st' ++ [[]]) ++ [[]])%list).
  assert (L2 : length st2 = (n + 2)%nat) by (subst st2 n; rewrite !length_app; simpl; lia).
  assert (T2 : forall s, (s < n)%nat -> state_table st2 s = state_table st' s).
  { intros s Hs. unfold state_table, st2. rewrite <- app_assoc. apply app_nth1. exact Hs. }
  assert (T2n : state_table st2 n = []).
  { unfold state_table, st2. rewrite <- app_assoc. rewrite app_nth2 by lia.
    subst n. rewrite Nat.sub_diag. reflexivity. }
  assert (T2Sn : state_table st2 (S n) = []).
  { unfold state_table, st2. rewrite <- app_assoc. rewrite app_nth2 by lia.
    subst n. replace (S (length st') - length st')%nat with 1%nat by lia. reflexivity. }
  assert (E1 : length (st' ++ [[]])%list = S n) by (rewrite length_app; simpl; lia).
  rewrite E1. fold n.
  eexists. split; [reflexivity|].
  set (st3 := st_setitem st2 n EPSILON (initial a')).
  set (st4 := st_setitem st3 n EPSILON (S n)).
  set (st5 := st_setitem st4 (final a') EPSILON n).
  set (st6 := st_setitem st5 (final a') EPSILON (S n)).
  assert (Hfn : final a' <> n) by lia.
  assert (HfSn : final a' <> S n) by lia.
  repeat split.
  - subst st6 st5 st4 st3. rewrite !length_setitem. exact L2.
  - subst st6 st5 st4 st3.
    rewrite !state_table_setitem_neq by congruence.
    fold n. rewrite state_table_setitem_eq by (rewrite length_setitem; lia).
    unfold st_get. rewrite state_table_setitem_eq by lia. unfold st_get.
    fold (state_table st2 n). rewrite T2n. simpl. reflexivity.
  - subst st6 st5 st4 st3.
    rewrite !state_table_setitem_neq by lia. exact T2Sn.
  - subst st6 st5. rewrite state_table_setitem_eq
      by (subst st4 st3; rewrite !length_setitem; lia).
    rewrite st_get_setitem_eq by (subst st4 st3; rewrite !length_setitem; lia).
    rewrite state_table_setitem_eq by (subst st4 st3; rewrite !length_setitem; lia).
    rewrite (dict_set_set String.eqb string_eqb_spec).
    assert (E : state_table st4 (final a') = state_table st' (final a')).
    { subst st4 st3. rewrite !state_table_setitem_neq by exact Hfn. apply T2; lia. }
    unfold st_get. fold (state_table st4 (final a')). rewrite E.
    rewrite <- app_assoc. reflexivity.
  - intros s Hs Hsn. subst st6 st5 st4 st3.
    rewrite !state_table_setitem_neq by (try exact Hs; lia). apply T2, Hsn.
Qed.

(** [perform_star_edges] at the fragment of [Automaton("a")], in place. *)
Lemma perform_star_edges_witness :
  copy_if false demo_store demo_a = (demo_a, demo_store) /\
  (final demo_a < length demo_store)%nat /\
  exists st'',
    perform_star demo_store demo_a false = (mkAutomaton 2 3 false, st'') /\
    length st'' = 4%nat /\
    state_table st'' 2 = [(EPSILON, [0%nat; 3%nat])] /\
    state_table st'' 3 = [] /\
    state_table st'' 1 =
      dict_set String.eqb (state_table demo_store 1) EPSILON
        (st_get demo_store 1 EPSILON [] ++ [2%nat; 3%nat])%list /\
    (forall s, s <> 1%nat -> (s < 2)%nat -> state_table st'' s = state_table demo_store s).
Proof.
  split; [reflexivity|]. split; [simpl; lia|].
  exact (perform_star_edges demo_store demo_a false demo_a demo_store
           eq_refl ltac:(simpl; lia)).
Defined.

(** Claim C5 does not hold as stated: starring [Automaton("a")] gives the
    old final state the epsilon targets [[new initial; new final]], with no
    edge back to the old initial state. *)
Lemma perform_star_no_edge_to_old_initial :
  match perform_star demo_store demo_a false with
  | (a2, st2) =>
      st_get st2 (final demo_a) EPSILON [] = [initial a2; final a2] /\
      ~ In (initial demo_a) (st_get st2 (final demo_a) EPSILON [])
  end.
Proof.
  vm_compute. split; [reflexivity|]. intros [H|[H|[]]]; discriminate.
Qed.

(** * Claim C9: simulation only reads the transition tables *)

Lemma st_getitem_contains st s l :
  st_contains st s l = true -> st_getitem st s l = (st_get st s l [], st).
Proof.
  unfold st_contains, dict_mem, st_getitem, st_get.
  destruct (dict_get String.eqb (state_table st s) l); [reflexivity | discriminate].
Qed.

Lemma closure_loop_store fuel st d q r st' :
  closure_loop fuel st d q = Some (r, st') -> st' = st.
Proof.
  revert st d q; induction fuel as [|f IH]; intros st d q H; destruct q as [|s q'];
    simpl in H; try discriminate.
  - congruence.
  - congruence.
  - destruct (dict_get Nat.eqb d s) as [ix|]; [|discriminate].
    destruct (st_contains st s EPSILON) eqn:C.
    + rewrite st_getitem_contains in H by exact C.
      destruct (fold_left (closure_push ix) _ _) as [d1 q1].
      exact (IH _ _ _ H).
    + exact (IH _ _ _ H).
Qed.

Lemma closure_store fuel st d r st' :
  closure fuel st d = Some (r, st') -> st' = st.
Proof. apply closure_loop_store. Qed.

Lemma trans_loop_store st items letter res r st' :
  trans_loop st items letter res = (r, st') -> st' = st.
Proof.
  revert letter res; induction items as [|[s ix] rest IH]; intros letter res H;
    cbn [trans_loop] in H.
  - congruence.
  - destruct (trans_label st s letter) as [alt letter'].
    destruct (st_contains st s alt) eqn:C.
    + rewrite st_getitem_contains in H by exact C. exact (IH _ _ H).
    + exact (IH _ _ H).
Qed.

Lemma trans_store st d letter r st' : trans st d letter = (r, st') -> st' = st.
Proof. apply trans_loop_store. Qed.

Lemma test_word_loop_store fuel st d word r st' :
  test_word_loop fuel st d word = Some (r, st') -> st' = st.
Proof.
  revert st d; induction word as [|c rest IH]; intros st d H; simpl in H.
  - congruence.
  - destruct (trans st d c) as [td st1] eqn:T. apply trans_store in T. subst st1.
    destruct (closure fuel st td) as [[d' st2]|] eqn:C; [|discriminate].
    apply closure_store in C. subst st2. exact (IH _ _ H).
Qed.

Lemma test_word_store fuel st a word b st' :
  test_word fuel st a word = Some (b, st') -> st' = st.
Proof.
  unfold test_word. intros H.
  destruct (closure fuel st _) as [[d st1]|] eqn:C; [|discriminate].
  apply closure_store in C. subst st1.
  destruct (test_word_loop fuel st d _) as [[d' st2]|] eqn:L; [|discriminate].
  apply test_word_loop_store in L. congruence.
Qed.

Lemma matching_step_store fuel a text i letter st d d' st' r :
  matching_step fuel a text i letter st d = Some (d', st', r) -> st' = st.
Proof.
  unfold matching_step. intros H.
  destruct (trans st d letter) as [td st1] eqn:T. apply trans_store in T. subst st1.
  destruct (closure fuel st _) as [[d2 st2]|] eqn:C; [|discriminate].
  apply closure_store in C. subst st2.
  destruct (dict_get Nat.eqb d2 (final a)) as [ms|]; [|congruence].
  destruct (zmin ms) as [z|]; [|discriminate].
  destruct (String.eqb _ _); [congruence|].
  destruct (test_word fuel st a _) as [[ok st3]|] eqn:W; [|discriminate].
  apply test_word_store in W. subst st3. destruct ok; congruence.
Qed.

Lemma matching_loop_store fuel a text i letters st d occ r st' :
  matching_loop fuel a text i letters st d occ = Some (r, st') -> st' = st.
Proof.
  revert i st d occ; induction letters as [|c rest IH]; intros i st d occ H;
    simpl in H.
  - congruence.
  - destruct (matching_step fuel a text i c st d) as [[[d' st1] rr]|] eqn:M;
      [|discriminate].
    apply matching_step_store in M. subst st1. exact (IH _ _ _ _ H).
Qed.

(** Claim C9.  Running [test_word] (full match) or [matching]
    (find_occurrences) returns the store it was given: no state gains a
    label, not even through the [defaultdict] insertion of [__getitem__],
    because every lookup of the simulation is guarded by [in], and no
    target list changes. *)
Theorem simulation_preserves_store fuel st a word text :
  (forall b st', test_word fuel st a word = Some (b, st') -> st' = st) /\
  (forall occ st', matching fuel st a text = Some (occ, st') -> st' = st).
Proof.
  split.
  - intros b st'. apply test_word_store.
  - intros occ st'. unfold matching, matching_dict. intros H.
    destruct (closure fuel st _) as [[d st1]|] eqn:C; [|discriminate].
    apply closure_store in C. subst st1.
    destruct (matching_loop fuel a text 0 _ st d []) as [[o st2]|] eqn:L;
      [|discriminate].
    apply matching_loop_store in L. congruence.
Qed.

(** [simulation_preserves_store] on the fragment of [Automaton("a")]:
    both runs return, and they return the store unchanged. *)
Lemma simulation_preserves_store_witness :
  test_word FUEL demo_store demo_a "a" = Some (true, demo_store) /\
  matching FUEL demo_store demo_a "xa" = Some ([(1, 2)], demo_store) /\
  (forall b st', test_word FUEL demo_store demo_a "a" = Some (b, st') -> st' = demo_store) /\
  (forall occ st', matching FUEL demo_store demo_a "xa" = Some (occ, st') -> st' = demo_store).
Proof.
  split; [vm_compute; reflexivity|].
  split; [vm_compute; reflexivity|].
  exact (simulation_preserves_store FUEL demo_store demo_a "a" "xa").
Defined.

(** * Claim C7: the epsilon closure *)

Section Closure.
Variable st : store.

Lemma In_zunion m a b : In m (zunion a b) <-> In m a \/ In m b.
Proof.
  unfold zunion. rewrite in_app_iff, filter_In. split.
  - intros [H|[H _]]; auto.
  - intros [H|H]; [auto|].
    destruct (in_dec Z.eq_dec m a) as [Ha|Ha]; [left; exact Ha | right].
    split; [exact H|]. apply negb_true_iff, not_true_iff_false.
    unfold zmem. intros E. apply existsb_exists in E.
    destruct E as [x [Hx Ex]]. apply Z.eqb_eq in Ex. subst. contradiction.
Qed.

Lemma dict_get_nat_set (d : frontier) k k' v :
  dict_get Nat.eqb (dict_set Nat.eqb d k v) k' =
  if Nat.eqb k' k then Some v else dict_get Nat.eqb d k'.
Proof. apply dict_get_set, nat_eqb_spec. Qed.

Lemma indom_keys (d : frontier) k : indom d k <-> In k (map fst d).
Proof.
  unfold indom. induction d as [|[k0 v0] d IH]; simpl.
  - split; [congruence | intros []].
  - destruct (Nat.eqb k k0) eqn:E.
    + apply Nat.eqb_eq in E. subst. split; [auto | congruence].
    + apply Nat.eqb_neq in E. rewrite IH. split; [auto|].
      intros [H|H]; [congruence | exact H].
Qed.

(** The inner [for] loop of [__closure] on a dequeued state whose marker
    set is [ix]. *)
Lemma closure_push_fold ix ts (d : frontier) q :
  let '(d1, q1) := fold_left (closure_push ix) ts (d, q) in
  q1 = (q ++ ts)%list /\
  (forall t, indom d1 t <-> indom d t \/ In t ts) /\
  (forall t m, has d1 t m <-> has d t m \/ (In t ts /\ In m ix)).
Proof.
  revert d q; induction ts as [|t0 ts IH]; intros d q; simpl.
  - rewrite app_nil_r. split; [reflexivity|]. split; intros; tauto.
  - assert (Step : forall dd,
             (forall t, indom dd t <-> indom d t \/ t0 = t) ->
             (forall t m, has dd t m <-> has d t m \/ (t0 = t /\ In m ix)) ->
             let '(d1, q1) := fold_left (closure_push ix) ts (dd, (q ++ [t0])%list) in
             q1 = (q ++ t0 :: ts)%list /\
             (forall t, indom d1 t <-> indom d t \/ t0 = t \/ In t ts) /\
             (forall t m, has d1 t m <-> has d t m \/ ((t0 = t \/ In t ts) /\ In m ix))).
    { intros dd Hd Hh. specialize (IH dd (q ++ [t0])%list).
      destruct (fold_left (closure_push ix) ts (dd, (q ++ [t0])%list)) as [d1 q1].
      destruct IH as [Hq [Hi Hm]]. split; [rewrite Hq, <- app_assoc; reflexivity|].
      split.
      - intros t. rewrite Hi, Hd. tauto.
      - intros t m. rewrite Hm, Hh. tauto. }
    destruct (dict_get Nat.eqb d t0) as [old|] eqn:G; apply Step.
    + intros t. unfold indom. rewrite dict_get_nat_set.
      destruct (Nat.eqb t t0) eqn:E; [apply Nat.eqb_eq in E|apply Nat.eqb_neq in E].
      * subst. split; [intros _; auto | congruence].
      * split; [auto | intros [H|H]; [exact H | congruence]].
    + intros t m. unfold has. rewrite dict_get_nat_set.
      destruct (Nat.eqb t t0) eqn:E; [apply Nat.eqb_eq in E|apply Nat.eqb_neq in E].
      * subst. rewrite G. split.
        -- intros [ms [Hms Hm]]. injection Hms as <-. apply In_zunion in Hm.
           destruct Hm; [left; eauto | right; auto].
        -- intros H. exists (zunion old ix). split; [reflexivity|].
           apply In_zunion. destruct H as [[ms [Hms Hm]]|[_ Hm]]; [|auto].
           injection Hms as <-. auto.
      * split; [auto | intros [H|[H _]]; [exact H | congruence]].
    + intros t. unfold indom. rewrite dict_get_nat_set.
      destruct (Nat.eqb t t0) eqn:E; [apply Nat.eqb_eq in E|apply Nat.eqb_neq in E].
      * subst. split; [intros _; auto | congruence].
      * split; [auto | intros [H|H]; [exact H | congruence]].
    + intros t m. unfold has. rewrite dict_get_nat_set.
      destruct (Nat.eqb t t0) eqn:E; [apply Nat.eqb_eq in E|apply Nat.eqb_neq in E].
      * subst. rewrite G. split.
        -- intros [ms [Hms Hm]]. injection Hms as <-. right; auto.
        -- intros [[ms [Hms _]]|[_ Hm]]; [discriminate | eauto].
      * split; [auto | intros [H|[H _]]; [exact H | congruence]].
Qed.

(** One iteration of the [while] loop, with the label lookup resolved. *)
Lemma closure_loop_step f d s q :
  closure_loop (S f) st d (s :: q) =
  match dict_get Nat.eqb d s with
  | None => None
  | Some ix =>
      let '(d1, q1) := fold_left (closure_push ix) (eps_succ st s) (d, q) in
      closure_loop f st d1 q1
  end.
Proof.
  simpl. destruct (dict_get Nat.eqb d s) as [ix|]; [|reflexivity].
  destruct (st_contains st s EPSILON) eqn:C.
  - rewrite st_getitem_contains by exact C. reflexivity.
  - unfold eps_succ, st_get. unfold st_contains, dict_mem in C.
    destruct (dict_get String.eqb (state_table st s) EPSILON); [discriminate|].
    reflexivity.
Qed.

Lemma last_cons_default (t s : nat) p : last (t :: p) s = last p t.
Proof.
  revert t s; induction p as [|x p IH]; intros t s; [reflexivity|].
  change (last (x :: p) s = last (x :: p) t). rewrite !IH. reflexivity.
Qed.

Lemma last_app_default (s : nat) p q : last (p ++ q) s = last q (last p s).
Proof.
  revert s; induction p as [|x p IH]; intros s; [reflexivity|].
  rewrite <- app_comm_cons, !last_cons_default. apply IH.
Qed.

Lemma eps_path_app s p1 p2 :
  eps_path st s (p1 ++ p2) <-> eps_path st s p1 /\ eps_path st (last p1 s) p2.
Proof.
  revert s; induction p1 as [|t p1 IH]; intros s.
  - simpl. tauto.
  - cbn [app eps_path]. rewrite IH, last_cons_default. tauto.
Qed.

Lemma eps_reach_refl s : eps_reach st s s.
Proof. exists []. simpl. auto. Qed.

Lemma eps_reach_step s x y :
  eps_reach st s x -> In y (eps_succ st x) -> eps_reach st s y.
Proof.
  intros [p [Hp Hl]] Hy. exists (p ++ [y])%list. split.
  - apply eps_path_app. split; [exact Hp|]. rewrite Hl. simpl. auto.
  - apply last_last.
Qed.

(** The loop invariant of [__closure] for the frontier [F] it was given. *)
Record closure_inv (F d : frontier) (q : list nat) : Prop := {
  ci_dom_sound : forall t, indom d t -> exists s, indom F s /\ eps_reach st s t;
  ci_has_sound : forall t m, has d t m -> exists s, has F s m /\ eps_reach st s t;
  ci_dom_init : forall s, indom F s -> indom d s;
  ci_has_init : forall s m, has F s m -> has d s m;
  ci_edges : forall x y, indom d x -> In y (eps_succ st x) ->
    In x q \/ (indom d y /\ forall m, has d x m -> has d y m);
  ci_queue : forall x, In x q -> indom d x
}.

Lemma closure_inv_init F : closure_inv F F (map fst F).
Proof.
  constructor.
  - intros t H. exists t. split; [exact H | apply eps_reach_refl].
  - intros t m H. exists t. split; [exact H | apply eps_reach_refl].
  - auto.
  - auto.
  - intros x y Hx _. left. apply indom_keys, Hx.
  - intros x Hx. apply indom_keys, Hx.
Qed.

Lemma closure_inv_step F d s q ix :
  closure_inv F d (s :: q) -> dict_get Nat.eqb d s = Some ix ->
  let '(d1, q1) := fold_left (closure_push ix) (eps_succ st s) (d, q) in
  closure_inv F d1 q1.
Proof.
  intros [I1 I2 I3 I4 I5 I6] Hs.
  pose proof (closure_push_fold ix (eps_succ st s) d q) as Hf.
  destruct (fold_left (closure_push ix) (eps_succ st s) (d, q)) as [d1 q1].
  destruct Hf as [Hq [Hi Hh]]. subst q1.
  assert (Hsd : indom d s) by (unfold indom; rewrite Hs; discriminate).
  constructor.
  - intros t Ht. apply Hi in Ht. destruct Ht as [Ht|Ht]; [auto|].
    destruct (I1 s Hsd) as [s0 [H0 R0]]. exists s0. split; [exact H0|].
    eapply eps_reach_step; eauto.
  - intros t m Ht. apply Hh in Ht. destruct Ht as [Ht|[Ht Hm]]; [auto|].
    destruct (I2 s m) as [s0 [H0 R0]]; [exists ix; auto|].
    exists s0. split; [exact H0|]. eapply eps_reach_step; eauto.
  - intros s0 H. apply Hi. auto.
  - intros s0 m H. apply Hh. auto.
  - intros x y Hx Hy.
    destruct (in_dec Nat.eq_dec x (q ++ eps_succ st s)%list) as [Hin|Hout];
      [left; exact Hin | right].
    rewrite in_app_iff in Hout.
    assert (Hxd : indom d x) by (apply Hi in Hx; destruct Hx as [Hx|Hx]; tauto).
    assert (Hxh : forall m, has d1 x m -> has d x m)
      by (intros m H; apply Hh in H; destruct H as [H|[H _]]; tauto).
    destruct (Nat.eq_dec x s) as [->|Hne].
    + split; [apply Hi; auto|].
      intros m Hm. apply Hxh in Hm. destruct Hm as [ms [Hms Hm]].
      rewrite Hs in Hms. injection Hms as <-. apply Hh. auto.
    + destruct (I5 x y Hxd Hy) as [[H|H]|[Hyd Hyh]]; [congruence | tauto |].
      split; [apply Hi; auto|].
      intros m Hm. apply Hh. left. apply Hyh, Hxh, Hm.
  - intros x Hx. apply Hi. rewrite in_app_iff in Hx.
    destruct Hx as [Hx|Hx]; [left; apply I6; simpl; auto | auto].
Qed.

(** Once the queue is empty, markers flow along every epsilon path. *)
Lemma closure_inv_closed F d :
  closure_inv F d [] ->
  forall s p, eps_path st s p -> indom d s ->
  indom d (last p s) /\ forall m, has d s m -> has d (last p s) m.
Proof.
  intros I s p. revert s. induction p as [|t p IH]; intros s Hp Hs.
  - simpl. auto.
  - destruct Hp as [Ht Hp]. rewrite last_cons_default.
    destruct (ci_edges _ _ _ I s t Hs Ht) as [[]|[Htd Hth]].
    specialize (IH t Hp Htd).
    destruct IH as [IH1 IH2]. split; [exact IH1|]. intros m Hm. apply IH2, Hth, Hm.
Qed.

(** ** Termination *)

(** Every epsilon target named anywhere in the store. *)
Definition all_eps_targets : list nat :=
  flat_map (fun t => match dict_get String.eqb t EPSILON with
                     | Some l => l | None => [] end) st.

Lemma eps_succ_in_targets s t : In t (eps_succ st s) -> In t all_eps_targets.
Proof.
  unfold eps_succ, st_get, state_table, all_eps_targets. intros H.
  destruct (Nat.lt_ge_cases s (length st)) as [Hl|Hl].
  - apply in_flat_map. exists (nth s st []). split; [apply nth_In, Hl|].
    destruct (dict_get String.eqb (nth s st []) EPSILON); [exact H | destruct H].
  - rewrite nth_overflow in H by exact Hl. destruct H.
Qed.

Lemma eps_path_in_targets s p : eps_path st s p -> incl p all_eps_targets.
Proof.
  revert s; induction p as [|t p IH]; intros s Hp x Hx; [destruct Hx|].
  destruct Hp as [Ht Hp]. destruct Hx as [<-|Hx].
  - eapply eps_succ_in_targets; eauto.
  - eapply IH; eauto.
Qed.

(** The number of epsilon paths of fewer than [n] edges from [s]. *)
Fixpoint npaths (n : nat) (s : nat) : nat :=
  match n with
  | O => 1
  | S n' => S (list_sum (map (npaths n') (eps_succ st s)))
  end.

Lemma npaths_stable n s :
  (forall p, eps_path st s p -> (length p < n)%nat) ->
  forall m, (n <= m)%nat -> npaths m s = npaths n s.
Proof.
  revert s; induction n as [|n IH]; intros s Hb m Hm.
  - specialize (Hb [] I). simpl in Hb. lia.
  - destruct m as [|m]; [lia|]. simpl. f_equal. f_equal. apply map_ext_in.
    intros t Ht. apply IH; [|lia].
    intros p Hp. specialize (Hb (t :: p) (conj Ht Hp)). simpl in Hb. lia.
Qed.

Definition queue_measure (K : nat) (q : list nat) : nat :=
  list_sum (map (npaths K) q).

Lemma list_sum_app l1 l2 : list_sum (l1 ++ l2) = (list_sum l1 + list_sum l2)%nat.
Proof. induction l1; simpl; lia. Qed.

Lemma closure_loop_runs F K :
  (forall s p, (exists s0, indom F s0 /\ eps_reach st s0 s) ->
     eps_path st s p -> (length p < S K)%nat) ->
  forall fuel d q, closure_inv F d q ->
  (queue_measure (S K) q <= fuel)%nat ->
  exists r, closure_loop fuel st d q = Some (r, st) /\ closure_inv F r [].
Proof.
  intros Hb fuel. induction fuel as [|f IH]; intros d q I Hm.
  - destruct q as [|s q]; [exists d; auto|].
    unfold queue_measure in Hm. simpl in Hm. lia.
  - destruct q as [|s q]; [exists d; auto|].
    rewrite closure_loop_step.
    assert (Hsd : indom d s) by (apply (ci_queue _ _ _ I); simpl; auto).
    destruct (dict_get Nat.eqb d s) as [ix|] eqn:Hs; [|exfalso; exact (Hsd Hs)].
    pose proof (closure_inv_step F d s q ix I Hs) as I1.
    pose proof (closure_push_fold ix (eps_succ st s) d q) as Hf.
    destruct (fold_left (closure_push ix) (eps_succ st s) (d, q)) as [d1 q1].
    destruct Hf as [Hq _]. subst q1.
    apply IH; [exact I1|].
    destruct (ci_dom_sound _ _ _ I s Hsd) as [s0 [H0 R0]].
    assert (Hst : forall t, In t (eps_succ st s) -> npaths (S K) t = npaths K t).
    { intros t Ht. apply npaths_stable; [|lia].
      intros p Hp. assert (Hp' : eps_path st s (t :: p)) by (split; assumption).
      specialize (Hb s (t :: p) (ex_intro _ s0 (conj H0 R0)) Hp'). simpl in Hb. lia. }
    unfold queue_measure in *. rewrite map_app, list_sum_app.
    cbn [map] in Hm. change (list_sum (?x :: ?l)) with (x + list_sum l)%nat in Hm.
    change (npaths (S K) s) with (S (list_sum (map (npaths K) (eps_succ st s)))) in Hm.
    rewrite (map_ext_in (npaths (S K)) (npaths K) (eps_succ st s) Hst). lia.
Qed.

(** Acyclicity bounds the length of the paths from the reachable states. *)
Lemma acyclic_bound F :
  (forall s p, (exists s0, indom F s0 /\ eps_reach st s0 s) ->
     eps_path st s p -> ~ In s p) ->
  forall s p, (exists s0, indom F s0 /\ eps_reach st s0 s) ->
  eps_path st s p -> (length p < S (length all_eps_targets))%nat.
Proof.
  intros Hac s p Hr Hp.
  destruct (ListDec.NoDup_dec Nat.eq_dec p) as [Hnd|Hnd].
  - pose proof (NoDup_incl_length Hnd (eps_path_in_targets s p Hp)). lia.
  - exfalso. destruct (ListDec.not_NoDup (fun x y : nat => match Nat.eq_dec x y with left h => or_introl h | right h => or_intror h end) Hnd) as (a & l1 & l2 & l3 & ->).
    apply eps_path_app in Hp. destruct Hp as [Hp1 Hp2].
    destruct Hp2 as [Ha Hp2].
    apply (Hac a (l2 ++ a :: l3)%list).
    + destruct Hr as [s0 [H0 R0]]. exists s0. split; [exact H0|].
      apply (eps_reach_step s0 (last l1 s)); [|exact Ha].
      destruct R0 as [p0 [Hp0 Hl0]]. exists (p0 ++ l1)%list. split.
      * apply eps_path_app. rewrite Hl0. auto.
      * rewrite <- Hl0. apply last_app_default.
    + exact Hp2.
    + apply in_app_iff. right. left. reflexivity.
Qed.

(** A rank that decreases along epsilon edges rules out epsilon cycles. *)
Lemma rank_acyclic (rank : nat -> nat) :
  (forall s t, In t (eps_succ st s) -> (rank t < rank s)%nat) ->
  forall s p, eps_path st s p -> forall x, In x p -> (rank x < rank s)%nat.
Proof.
  intros Hr s p. revert s. induction p as [|t p IH]; intros s Hp x Hx; [destruct Hx|].
  destruct Hp as [Ht Hp]. specialize (Hr s t Ht).
  destruct Hx as [<-|Hx]; [exact Hr|]. specialize (IH t Hp x Hx). lia.
Qed.

End Closure.

Lemma eps_succ_out_of_range st s : (length st <= s)%nat -> eps_succ st s = [].
Proof.
  intros H. unfold eps_succ, st_get, state_table. rewrite nth_overflow by exact H.
  reflexivity.
Qed.

Lemma rank_ok_acyclic st rank :
  rank_ok st rank = true -> forall s p, eps_path st s p -> ~ In s p.
Proof.
  intros Hok. assert (Hr : forall s t, In t (eps_succ st s) -> (rank t < rank s)%nat).
  { intros s t Ht. destruct (Nat.lt_ge_cases s (length st)) as [Hl|Hl].
    - unfold rank_ok in Hok. rewrite forallb_forall in Hok.
      specialize (Hok s (proj2 (in_seq _ _ _) (conj (Nat.le_0_l s) Hl))).
      rewrite forallb_forall in Hok. apply Nat.ltb_lt, Hok, Ht.
    - rewrite eps_succ_out_of_range in Ht by exact Hl. destruct Ht. }
  intros s p Hp Hin. pose proof (rank_acyclic st rank Hr s p Hp s Hin). lia.
Qed.

Lemma has_indom d t m : has d t m -> indom d t.
Proof. intros [ms [H _]]. unfold indom. rewrite H. discriminate. Qed.

(** Claim C7.  If the epsilon edges of the store form no cycle, then for every
    frontier [d] there is a bound [N] such that [__closure] with at least [N]
    dequeues finishes, leaves the store as it was, and returns the map whose
    keys are exactly the states epsilon-reachable from a key of [d] and in
    which each such state carries exactly the markers of the keys of [d] that
    epsilon-reach it. *)
Theorem closure_terminates_union st d :
  (forall s p, eps_path st s p -> ~ In s p) ->
  exists N, forall fuel, (N <= fuel)%nat -> exists r,
    closure fuel st d = Some (r, st) /\
    (forall t, indom r t <-> exists s, indom d s /\ eps_reach st s t) /\
    (forall t m, has r t m <-> exists s, has d s m /\ eps_reach st s t).
Proof.
  intros Hac.
  exists (queue_measure st (S (length (all_eps_targets st))) (map fst d)).
  intros fuel Hf.
  destruct (closure_loop_runs st d (length (all_eps_targets st))
              (acyclic_bound st d (fun s p _ Hp => Hac s p Hp))
              fuel d (map fst d) (closure_inv_init st d) Hf) as [r [Hr I]].
  exists r. split; [exact Hr|]. split.
  - intros t. split; [apply (ci_dom_sound st d r [] I)|].
    intros [s [Hs [p [Hp Hl]]]]. subst t.
    apply (closure_inv_closed st d r I s p Hp (ci_dom_init st d r [] I s Hs)).
  - intros t m. split; [apply (ci_has_sound st d r [] I)|].
    intros [s [Hs [p [Hp Hl]]]]. subst t.
    apply (closure_inv_closed st d r I s p Hp).
    + apply (ci_dom_init st d r [] I), (has_indom d s m Hs).
    + apply (ci_has_init st d r [] I), Hs.
Qed.

Lemma closure_terminates_union_witness :
  compile "ab*a" = Some (mkAutomaton 0 7 false, ab_star_a_store) /\
  closure FUEL ab_star_a_store [(1%nat, [0])] =
    Some ([(1%nat, [0]); (4%nat, [0]); (2%nat, [0]); (5%nat, [0]); (6%nat, [0])],
          ab_star_a_store) /\
  exists N, forall fuel, (N <= fuel)%nat -> exists r,
    closure fuel ab_star_a_store [(1%nat, [0])] = Some (r, ab_star_a_store) /\
    (forall t, indom r t <-> exists s, indom [(1%nat, [0])] s /\ eps_reach ab_star_a_store s t) /\
    (forall t m, has r t m <-> exists s, has [(1%nat, [0])] s m /\ eps_reach ab_star_a_store s t).
Proof.
  split; [vm_compute; reflexivity|]. split; [vm_compute; reflexivity|].
  apply (closure_terminates_union ab_star_a_store [(1%nat, [0])]).
  apply (rank_ok_acyclic ab_star_a_store ab_star_a_rank). vm_compute. reflexivity.
Defined.

(** ** The occurrences dict and the recordings of the scan *)

Definition rec_set (o : @dict Z Z) (p : Z * Z) : @dict Z Z :=
  dict_set Z.eqb o (fst p) (snd p).

Definition add_key (acc : list Z) (k : Z) : list Z :=
  if existsb (Z.eqb k) acc then acc else (acc ++ [k])%list.

Lemma matching_step_end fuel a text i letter st d d' st' p :
  matching_step fuel a text i letter st d = Some (d', st', Some p) -> snd p = i + 1.
Proof.
  unfold matching_step. intros H.
  destruct (trans st d letter) as [td st1].
  destruct (closure fuel st1 _) as [[d2 st2]|]; [|discriminate].
  destruct (dict_get Nat.eqb d2 (final a)) as [ms|]; [|congruence].
  destruct (zmin ms) as [z|]; [|discriminate].
  destruct (String.eqb _ _); [congruence|].
  destruct (test_word fuel st2 a _) as [[ok st3]|]; [|discriminate].
  destruct ok; [|congruence]. injection H as _ _ <-. reflexivity.
Qed.

Lemma matching_loop_scan fuel a text letters : forall i st d occ occ' st',
  matching_loop fuel a text i letters st d occ = Some (occ', st') ->
  exists recs, scan_loop fuel a text i letters st d = Some recs /\
    occ' = fold_left rec_set recs occ /\
    Forall (fun p => i < snd p) recs /\ Sorted Z.lt (map snd recs).
Proof.
  induction letters as [|c rest IH]; intros i st d occ occ' st' H; simpl in H |- *.
  - injection H as <- _. exists []. repeat split; constructor.
  - destruct (matching_step fuel a text i c st d) as [[[d1 st1] r]|] eqn:M;
      [|discriminate].
    destruct (IH _ _ _ _ _ _ H) as [recs [Hs [Ho [Hf Hso]]]].
    rewrite Hs. destruct r as [p|].
    + apply matching_step_end in M.
      exists (p :: recs). split; [reflexivity|]. split; [rewrite Ho; destruct p; reflexivity|]. split.
      * constructor; [lia|]. eapply Forall_impl; [|exact Hf]. intros q Hq. simpl in Hq. lia.
      * simpl. constructor; [exact Hso|]. destruct recs as [|q recs]; constructor.
        inversion Hf; subst. lia.
    + exists recs. split; [reflexivity|]. split; [exact Ho|]. split; [|exact Hso].
      eapply Forall_impl; [|exact Hf]. intros q Hq. simpl in Hq. lia.
Qed.

(** What [matching] returns is the fold of the recordings into an empty dict. *)
Lemma matching_records fuel st a text occ st' :
  matching fuel st a text = Some (occ, st') ->
  exists recs, scan_records fuel st a text = Some recs /\
    occ = fold_left rec_set recs [] /\ Sorted Z.lt (map snd recs).
Proof.
  unfold matching, matching_dict, scan_records. intros H.
  destruct (closure fuel st _) as [[d st1]|]; [|discriminate].
  destruct (matching_loop fuel a text 0 (Py.chars text) st1 d []) as [[o st2]|] eqn:L;
    [|discriminate].
  injection H as <- _.
  destruct (matching_loop_scan _ _ _ _ _ _ _ _ _ _ L) as [recs [Hs [Ho [_ Hso]]]].
  exists recs. auto.
Qed.

Lemma fold_rec_set_keys recs : forall o,
  map fst (fold_left rec_set recs o) = fold_left add_key (map fst recs) (map fst o).
Proof.
  induction recs as [|[k v] recs IH]; intros o; simpl; [reflexivity|].
  rewrite IH. unfold rec_set. simpl. rewrite (dict_set_keys Z.eqb). reflexivity.
Qed.

Lemma filter_filter_Z (f g : Z -> bool) l :
  filter f (filter g l) = filter (fun y => f y && g y) l.
Proof.
  induction l as [|x l IH]; simpl; [reflexivity|].
  destruct (g x) eqn:G, (f x) eqn:F; simpl; rewrite ?F, ?G, ?IH; reflexivity.
Qed.

Lemma fold_add_key l : forall acc,
  fold_left add_key l acc =
  (acc ++ filter (fun y => negb (existsb (Z.eqb y) acc)) (dedup_first l))%list.
Proof.
  induction l as [|x l IH]; intros acc.
  - cbn [fold_left dedup_first filter]. rewrite app_nil_r. reflexivity.
  - cbn [fold_left dedup_first]. rewrite IH. unfold add_key.
    destruct (existsb (Z.eqb x) acc) eqn:X.
    + cbn [filter]. rewrite X. cbn [negb]. f_equal.
      rewrite filter_filter_Z. apply filter_ext. intros y.
      destruct (existsb (Z.eqb y) acc) eqn:Y; [reflexivity|]. cbn [negb andb].
      destruct (Z.eqb y x) eqn:E; [|reflexivity].
      apply Z.eqb_eq in E. subst. congruence.
    + cbn [filter]. rewrite X. cbn [negb]. rewrite <- app_assoc. cbn [app]. f_equal. f_equal.
      rewrite filter_filter_Z. apply filter_ext. intros y.
      rewrite existsb_app. cbn [existsb]. rewrite orb_false_r.
      destruct (existsb (Z.eqb y) acc); reflexivity.
Qed.

Lemma filter_all_true (l : list Z) : filter (fun _ => true) l = l.
Proof. induction l as [|x l IH]; simpl; congruence. Qed.

(** The keys of the occurrences dict: the starts in order of first recording. *)
Lemma fold_rec_set_order recs :
  map fst (fold_left rec_set recs []) = dedup_first (map fst recs).
Proof. rewrite fold_rec_set_keys, fold_add_key. simpl. apply filter_all_true. Qed.

Lemma NoDup_dedup_first l : NoDup (dedup_first l).
Proof.
  induction l as [|x l IH]; simpl; constructor.
  - rewrite filter_In. intros [_ H]. rewrite Z.eqb_refl in H. discriminate.
  - apply NoDup_filter, IH.
Qed.

Lemma in_keys_iff (recs : list (Z * Z)) k : In k (map fst recs) <-> exists e, In (k, e) recs.
Proof.
  rewrite in_map_iff. split.
  - intros [[k' e] [<- H]]. eauto.
  - intros [e H]. exists (k, e). auto.
Qed.

(** With the ends strictly increasing, the value left for a start is the
    largest (and last) end recorded for it. *)
Lemma fold_rec_set_get recs : forall o k e,
  StronglySorted Z.lt (map snd recs) ->
  (dict_get Z.eqb (fold_left rec_set recs o) k = Some e <->
   (In (k, e) recs /\ forall e', In (k, e') recs -> e' <= e) \/
   (dict_get Z.eqb o k = Some e /\ ~ In k (map fst recs))).
Proof.
  induction recs as [|[k0 e0] recs IH]; intros o k e Hs; simpl.
  - tauto.
  - apply StronglySorted_inv in Hs. destruct Hs as [Hs Hlt].
    rewrite Forall_forall in Hlt.
    assert (Hr : forall e', In (k0, e') recs -> e0 < e').
    { intros e' H. apply Hlt. change e' with (snd (k0, e')). apply in_map, H. }
    rewrite (IH _ k e Hs). unfold rec_set. simpl.
    rewrite (dict_get_set Z.eqb z_eqb_spec).
    destruct (Z.eqb k k0) eqn:E.
    + apply Z.eqb_eq in E. subst k0. split.
      * intros [[Hi Hm]|[Hg Hn]].
        -- left. split; [auto|]. intros e' [He'|He'].
           ++ injection He' as <-. apply Z.lt_le_incl, Hr, Hi.
           ++ apply Hm, He'.
        -- injection Hg as <-. left. split; [auto|]. intros e' [He'|He'].
           ++ injection He' as <-. apply Z.le_refl.
           ++ exfalso. apply Hn, in_keys_iff. eauto.
      * intros [[[Hi|Hi] Hm]|[_ Hn]].
        -- injection Hi as <-. right. split; [reflexivity|].
           intros Hk. apply in_keys_iff in Hk. destruct Hk as [e'' He''].
           specialize (Hm e'' (or_intror He'')). specialize (Hr e'' He''). lia.
        -- left. split; [exact Hi|]. intros e' He'. apply Hm. auto.
        -- exfalso. apply Hn. auto.
    + apply Z.eqb_neq in E.
      assert (Hne : forall v, (k0, e0) <> (k, v)) by congruence.
      split.
      * intros [[Hi Hm]|[Hg Hn]].
        -- left. split; [auto|]. intros e' [He'|He']; [exfalso; eapply Hne; eauto|auto].
        -- right. split; [exact Hg|]. intros [H|H]; [congruence|auto].
      * intros [[[Hi|Hi] Hm]|[Hg Hn]].
        -- exfalso; eapply Hne; eauto.
        -- left. split; [exact Hi|]. intros e' He'. apply Hm. auto.
        -- right. split; [exact Hg|]. auto.
Qed.

Lemma In_dict_get_Z (o : @dict Z Z) k v :
  NoDup (map fst o) -> (In (k, v) o <-> dict_get Z.eqb o k = Some v).
Proof.
  induction o as [|[k0 v0] o IH]; simpl; intros Hn; [split; [tauto|discriminate]|].
  inversion Hn as [|? ? Hk Hn']; subst.
  destruct (Z.eqb k k0) eqn:E.
  - apply Z.eqb_eq in E. subst k0. split.
    + intros [H|H]; [congruence|]. exfalso. apply Hk, in_keys_iff. eauto.
    + intros H. injection H as <-. auto.
  - apply Z.eqb_neq in E. rewrite <- IH by exact Hn'. split; [|auto].
    intros [H|H]; [congruence|exact H].
Qed.

(** Claim C8, as amended.  The spans that [matching] returns come in the
    order in which their start was first recorded by the scan; the scan
    records at strictly increasing ends, and each span carries the largest
    (last) end recorded for its start. *)
Theorem matching_spans_order fuel st a text occ st' :
  matching fuel st a text = Some (occ, st') ->
  exists recs, scan_records fuel st a text = Some recs /\
    Sorted Z.lt (map snd recs) /\
    map fst occ = dedup_first (map fst recs) /\
    (forall s e, In (s, e) occ -> In (s, e) recs /\ forall e', In (s, e') recs -> e' <= e).
Proof.
  intros H. destruct (matching_records _ _ _ _ _ _ H) as [recs [Hs [-> Hso]]].
  exists recs. split; [exact Hs|]. split; [exact Hso|]. split; [apply fold_rec_set_order|].
  intros s e Hi.
  apply In_dict_get_Z in Hi; [|rewrite fold_rec_set_order; apply NoDup_dedup_first].
  apply fold_rec_set_get in Hi; [|apply Sorted_StronglySorted; [exact Z.lt_trans | exact Hso]].
  destruct Hi as [Hi|[Hg _]]; [exact Hi | discriminate].
Qed.

Lemma matching_spans_order_witness :
  scan_records FUEL aa_plus_store (mkAutomaton 0 9 false) "aaaa" =
    Some [(0, 2); (1, 3); (0, 4)] /\
  exists recs, scan_records FUEL aa_plus_store (mkAutomaton 0 9 false) "aaaa" = Some recs /\
    Sorted Z.lt (map snd recs) /\
    map fst [(0, 4); (1, 3)] = dedup_first (map fst recs) /\
    (forall s e, In (s, e) [(0, 4); (1, 3)] -> In (s, e) recs /\
       forall e', In (s, e') recs -> e' <= e).
Proof.
  split; [vm_compute; reflexivity|].
  apply (matching_spans_order FUEL aa_plus_store (mkAutomaton 0 9 false) "aaaa"
           [(0, 4); (1, 3)] aa_plus_store).
  vm_compute. reflexivity.
Defined.

(** Claim C10.  The list that [matching] returns has one span per start; a
    span [(s, e)] is in it exactly when the scan recorded [(s, e)] and no
    larger end for [s]; and the spans keep the order of the first recording
    of their start. *)
Theorem matching_one_span_per_start fuel st a text occ st' :
  matching fuel st a text = Some (occ, st') ->
  exists recs, scan_records fuel st a text = Some recs /\
    NoDup (map fst occ) /\
    (forall s e, In (s, e) occ <-> In (s, e) recs /\ forall e', In (s, e') recs -> e' <= e) /\
    map fst occ = dedup_first (map fst recs).
Proof.
  intros H. destruct (matching_records _ _ _ _ _ _ H) as [recs [Hs [-> Hso]]].
  assert (Hnd : NoDup (map fst (fold_left rec_set recs [])))
    by (rewrite fold_rec_set_order; apply NoDup_dedup_first).
  exists recs. split; [exact Hs|]. split; [exact Hnd|]. split; [|apply fold_rec_set_order].
  intros s e. rewrite (In_dict_get_Z _ s e Hnd).
  rewrite fold_rec_set_get by (apply Sorted_StronglySorted; [exact Z.lt_trans | exact Hso]).
  simpl. split; [intros [Hi|[Hg _]]; [exact Hi | discriminate] | auto].
Qed.

Lemma matching_one_span_per_start_witness :
  matching FUEL aa_plus_store (mkAutomaton 0 9 false) "aaaa" =
    Some ([(0, 4); (1, 3)], aa_plus_store) /\
  exists recs, scan_records FUEL aa_plus_store (mkAutomaton 0 9 false) "aaaa" = Some recs /\
    NoDup (map fst [(0, 4); (1, 3)]) /\
    (forall s e, In (s, e) [(0, 4); (1, 3)] <->
       In (s, e) recs /\ forall e', In (s, e') recs -> e' <= e) /\
    map fst [(0, 4); (1, 3)] = dedup_first (map fst recs).
Proof.
  split; [vm_compute; reflexivity|].
  apply (matching_one_span_per_start FUEL aa_plus_store (mkAutomaton 0 9 false) "aaaa"
           [(0, 4); (1, 3)] aa_plus_store).
  vm_compute. reflexivity.
Defined.

(** * Further properties of the code *)

(** ** state.py *)

Lemma dict_get_app_missing (t : table) l l' x :
  dict_get String.eqb t l' = None ->
  dict_get String.eqb (t ++ [(l, x)])%list l' = if String.eqb l' l then Some x else None.
Proof.
  induction t as [|[k v] t IH]; simpl; intros H; [reflexivity|].
  destruct (String.eqb l' k); [discriminate | apply IH, H].
Qed.

Lemma dict_get_app_present (t u : table) l' x :
  dict_get String.eqb t l' = Some x -> dict_get String.eqb (t ++ u)%list l' = Some x.
Proof.
  induction t as [|[k v] t IH]; simpl; intros H; [discriminate|].
  destruct (String.eqb l' k); [exact H | apply IH, H].
Qed.

Lemma st_setitem_spec st s l v :
  (s < length st)%nat ->
  length (st_setitem st s l v) = length st /\
  st_get (st_setitem st s l v) s l [] = (st_get st s l [] ++ [v])%list /\
  (forall s' l' d, s' <> s \/ l' <> l ->
     st_get (st_setitem st s l v) s' l' d = st_get st s' l' d).
Proof.
  intros H. split; [apply length_setitem|]. split; [apply st_get_setitem_eq, H|].
  intros s' l' d Hne. destruct (Nat.eq_dec s' s) as [->|Hs].
  - unfold st_get. fold (state_table (st_setitem st s l v) s).
    rewrite state_table_setitem_eq by exact H.
    rewrite (dict_get_set String.eqb string_eqb_spec).
    destruct (String.eqb l' l) eqn:E; [|reflexivity].
    apply String.eqb_eq in E. destruct Hne; congruence.
  - unfold st_get. fold (state_table (st_setitem st s l v) s').
    rewrite state_table_setitem_neq by exact Hs. reflexivity.
Qed.

(** [state[key] = value] appends [value] to the list stored under [key]
    (starting from an empty list), and changes no other key of this state
    and no other state. *)
Theorem setitem_appends st s l v :
  (s < length st)%nat ->
  length (st_setitem st s l v) = length st /\
  st_get (st_setitem st s l v) s l [] = (st_get st s l [] ++ [v])%list /\
  (forall s' l' d, s' <> s \/ l' <> l ->
     st_get (st_setitem st s l v) s' l' d = st_get st s' l' d).
Proof. apply st_setitem_spec. Qed.

Lemma setitem_appends_witness :
  (0 < length demo_store)%nat /\
  length (st_setitem demo_store 0 "a" 0) = length demo_store /\
  st_get (st_setitem demo_store 0 "a" 0) 0 "a" [] = (st_get demo_store 0 "a" [] ++ [0%nat])%list /\
  (forall s' l' d, s' <> 0%nat \/ l' <> "a" ->
     st_get (st_setitem demo_store 0 "a" 0) s' l' d = st_get demo_store s' l' d).
Proof.
  split; [simpl; lia|].
  apply (setitem_appends demo_store 0 "a" 0). simpl. lia.
Defined.

(** [state[item]] returns the list stored under [item]; when [item] is
    missing, the [defaultdict] inserts it with an empty list, so that
    [item in state] holds afterwards.  No other key or state changes, and
    a present key leaves the store as it was. *)
Theorem getitem_inserts_missing st s l :
  (s < length st)%nat ->
  let '(x, st') := st_getitem st s l in
  x = st_get st s l [] /\
  st_contains st' s l = true /\
  (forall d, st_get st' s l d = x) /\
  (forall s' l' d, s' <> s \/ l' <> l -> st_get st' s' l' d = st_get st s' l' d) /\
  (st_contains st s l = true -> st' = st).
Proof.
  intros H. unfold st_getitem, st_contains, dict_mem, st_get.
  destruct (dict_get String.eqb (state_table st s) l) as [x|] eqn:G.
  - rewrite G. repeat split; auto.
  - assert (T : state_table (list_set st s (state_table st s ++ [(l, [])])%list) s =
                (state_table st s ++ [(l, [])])%list)
      by (unfold state_table; apply nth_list_set_eq, H).
    rewrite T, (dict_get_app_missing _ _ _ _ G), String.eqb_refl.
    split; [reflexivity|]. split; [reflexivity|]. split; [reflexivity|].
    split; [|discriminate].
    intros s' l' d Hne. destruct (Nat.eq_dec s' s) as [->|Hs].
    + rewrite T. destruct (dict_get String.eqb (state_table st s) l') eqn:G'.
      * rewrite (dict_get_app_present _ _ _ _ G'). reflexivity.
      * rewrite (dict_get_app_missing _ _ _ _ G').
        destruct (String.eqb l' l) eqn:E; [|reflexivity].
        apply String.eqb_eq in E. destruct Hne; congruence.
    + unfold state_table at 1. rewrite nth_list_set_neq by exact Hs. reflexivity.
Qed.

Lemma getitem_inserts_missing_witness :
  (0 < length demo_store)%nat /\
  st_getitem demo_store 0 "" = ([], [[("a", [1%nat]); ("", [])]; []]) /\
  let '(x, st') := st_getitem demo_store 0 "" in
  x = st_get demo_store 0 "" [] /\
  st_contains st' 0 "" = true /\
  (forall d, st_get st' 0 "" d = x) /\
  (forall s' l' d, s' <> 0%nat \/ l' <> "" -> st_get st' s' l' d = st_get demo_store s' l' d) /\
  (st_contains demo_store 0 "" = true -> st' = demo_store).
Proof.
  split; [simpl; lia|]. split; [vm_compute; reflexivity|].
  apply (getitem_inserts_missing demo_store 0 ""). simpl. lia.
Defined.

(** ** automaton.py: fragments *)

Lemma list_set_app_r {A} (l1 l2 : list A) k x :
  list_set (l1 ++ l2) (length l1 + k) x = (l1 ++ list_set l2 k x)%list.
Proof. induction l1 as [|y l1 IH]; simpl; [reflexivity|]. rewrite IH. reflexivity. Qed.

(** [Automaton(letter)] appends two fresh states to the store: the initial
    one, whose only transition is [letter] to the final one, and the final
    one, with no transition.  The states that already existed are left as
    they were. *)
Theorem Automaton_fresh st letter :
  let n := length st in
  Automaton st letter =
    (mkAutomaton n (S n) false, (st ++ [[(letter, [S n])]; []])%list).
Proof.
  intros n. unfold Automaton, new_state.
  rewrite length_app. simpl. replace (length st + 1)%nat with (S n) by (subst n; lia).
  unfold st_setitem, state_table.
  rewrite <- app_assoc. simpl.
  rewrite app_nth2 by lia. replace (length st - length st)%nat with 0%nat by lia. simpl.
  replace (length st) with (length st + 0)%nat at 2 by lia.
  rewrite list_set_app_r. reflexivity.
Qed.

Lemma st_get_app_l st x s l d :
  (s < length st)%nat -> st_get (st ++ x)%list s l d = st_get st s l d.
Proof. intros H. unfold st_get, state_table. rewrite app_nth1 by exact H. reflexivity. Qed.

Lemma st_get_other st s l v s' l' d :
  (s < length st)%nat -> s' <> s \/ l' <> l ->
  st_get (st_setitem st s l v) s' l' d = st_get st s' l' d.
Proof. intros H Hne. apply (st_setitem_spec st s l v H). exact Hne. Qed.

(** Concatenation without copies (as [__term] calls it) adds one epsilon
    edge, from the final state of the first fragment to the initial state
    of the second, and changes nothing else; the result runs from the
    first fragment's initial state to the second fragment's final state. *)
Theorem concatenation_in_place st a1 a2 :
  (final a1 < length st)%nat ->
  let '(a, st') := perform_concatenation st a1 a2 false false in
  a = mkAutomaton (initial a1) (final a2) false /\
  length st' = length st /\
  st_get st' (final a1) EPSILON [] = (st_get st (final a1) EPSILON [] ++ [initial a2])%list /\
  (forall s l d, s <> final a1 \/ l <> EPSILON -> st_get st' s l d = st_get st s l d).
Proof.
  intros H. unfold perform_concatenation, copy_if, perform_concatenation_body.
  destruct (st_setitem_spec st (final a1) EPSILON (initial a2) H) as [L [G O]].
  split; [reflexivity|]. auto.
Qed.

Lemma concatenation_in_place_witness :
  (final demo_a < length demo_store)%nat /\
  let '(a, st') := perform_concatenation demo_store demo_a demo_a false false in
  a = mkAutomaton (initial demo_a) (final demo_a) false /\
  length st' = length demo_store /\
  st_get st' (final demo_a) EPSILON [] =
    (st_get demo_store (final demo_a) EPSILON [] ++ [initial demo_a])%list /\
  (forall s l d, s <> final demo_a \/ l <> EPSILON -> st_get st' s l d = st_get demo_store s l d).
Proof.
  split; [simpl; lia|].
  apply (concatenation_in_place demo_store demo_a demo_a). simpl. lia.
Defined.

(** Alternative without copies (as [__expr] calls it) appends a new initial
    state [n] with epsilon edges to both initial states, and a new final
    state [n + 1] without transitions; it adds an epsilon edge to [n + 1]
    from each of the two final states, and changes nothing else. *)
Theorem alternative_in_place st a1 a2 :
  (final a1 < length st)%nat -> (final a2 < length st)%nat -> final a1 <> final a2 ->
  let n := length st in
  let '(a, st') := perform_alternative st a1 a2 false false in
  a = mkAutomaton n (S n) false /\
  length st' = (n + 2)%nat /\
  state_table st' n = [(EPSILON, [initial a1; initial a2])] /\
  state_table st' (S n) = [] /\
  st_get st' (final a1) EPSILON [] = (st_get st (final a1) EPSILON [] ++ [S n])%list /\
  st_get st' (final a2) EPSILON [] = (st_get st (final a2) EPSILON [] ++ [S n])%list /\
  (forall s l d, (s < n)%nat -> (s <> final a1 /\ s <> final a2) \/ l <> EPSILON ->
     st_get st' s l d = st_get st s l d).
Proof.
  intros H1 H2 H12 n. unfold perform_alternative, copy_if, perform_alternative_body, new_state.
  rewrite length_app. simpl. replace (length st + 1)%nat with (S n) by (subst n; lia).
  fold n.
  set (st2 := ((st ++ [[]]) ++ [[]])%list).
  assert (L2 : length st2 = (n + 2)%nat) by (subst st2 n; rewrite !length_app; simpl; lia).
  assert (G2 : forall s l d, (s < n)%nat -> st_get st2 s l d = st_get st s l d).
  { intros s l d Hs. subst st2. rewrite <- app_assoc. apply st_get_app_l, Hs. }
  assert (T2n : state_table st2 n = []).
  { unfold state_table, st2. rewrite <- app_assoc. rewrite app_nth2 by lia.
    subst n. rewrite Nat.sub_diag. reflexivity. }
  assert (T2Sn : state_table st2 (S n) = []).
  { unfold state_table, st2. rewrite <- app_assoc. rewrite app_nth2 by lia.
    subst n. replace (S (length st) - length st)%nat with 1%nat by lia. reflexivity. }
  set (st3 := st_setitem st2 n EPSILON (initial a1)).
  set (st4 := st_setitem st3 n EPSILON (initial a2)).
  set (st5 := st_setitem st4 (final a1) EPSILON (S n)).
  set (st6 := st_setitem st5 (final a2) EPSILON (S n)).
  assert (L3 : length st3 = (n + 2)%nat) by (subst st3; rewrite length_setitem; exact L2).
  assert (L4 : length st4 = (n + 2)%nat) by (subst st4; rewrite length_setitem; exact L3).
  assert (L5 : length st5 = (n + 2)%nat) by (subst st5; rewrite length_setitem; exact L4).
  assert (G4 : forall s l d, (s < n)%nat -> st_get st4 s l d = st_get st s l d).
  { intros s l d Hs. subst st4 st3.
    rewrite !st_get_other by (lia || (left; lia)). apply G2, Hs. }
  split; [reflexivity|]. split; [subst st6; rewrite length_setitem; exact L5|].
  split.
  { subst st6 st5. rewrite !state_table_setitem_neq by lia.
    subst st4. rewrite state_table_setitem_eq by lia.
    subst st3. rewrite st_get_setitem_eq by lia.
    rewrite state_table_setitem_eq by lia. unfold st_get. rewrite T2n. reflexivity. }
  split.
  { subst st6 st5 st4 st3. rewrite !state_table_setitem_neq by lia. exact T2Sn. }
  split.
  { subst st6. rewrite st_get_other by (lia || (left; congruence)).
    subst st5. rewrite st_get_setitem_eq by lia. rewrite G4 by lia. reflexivity. }
  split.
  { subst st6. rewrite st_get_setitem_eq by lia.
    subst st5. rewrite st_get_other by (lia || (left; congruence)).
    rewrite G4 by lia. reflexivity. }
  intros s l d Hs Hne. subst st6 st5.
  rewrite !st_get_other by (lia || (destruct Hne as [[? ?]|?]; [left|right]; assumption)).
  apply G4, Hs.
Qed.

Lemma alternative_in_place_witness :
  (final demo_a < length ab_star_a_store)%nat /\ (7 < length ab_star_a_store)%nat /\
  final demo_a <> 7%nat /\
  let '(a, st') := perform_alternative ab_star_a_store demo_a (mkAutomaton 6 7 false) false false in
  a = mkAutomaton 8 9 false /\
  length st' = (8 + 2)%nat /\
  state_table st' 8 = [(EPSILON, [0%nat; 6%nat])] /\
  state_table st' 9 = [] /\
  st_get st' 1 EPSILON [] = (st_get ab_star_a_store 1 EPSILON [] ++ [9%nat])%list /\
  st_get st' 7 EPSILON [] = (st_get ab_star_a_store 7 EPSILON [] ++ [9%nat])%list /\
  (forall s l d, (s < 8)%nat -> (s <> 1%nat /\ s <> 7%nat) \/ l <> EPSILON ->
     st_get st' s l d = st_get ab_star_a_store s l d).
Proof.
  split; [simpl; lia|]. split; [simpl; lia|]. split; [simpl; lia|].
  apply (alternative_in_place ab_star_a_store demo_a (mkAutomaton 6 7 false));
    simpl; lia.
Defined.

(** ** automaton.py: the copying operators *)

Lemma firstn_list_set_ge {A} (l : list A) n k x :
  (n <= k)%nat -> firstn n (list_set l k x) = firstn n l.
Proof.
  revert n k; induction l as [|y l IH]; intros n k H; [reflexivity|].
  destruct n as [|n]; [reflexivity|]. destruct k as [|k]; [lia|].
  simpl. f_equal. apply IH. lia.
Qed.

Lemma extends_length st0 st : extends st0 st -> (length st0 <= length st)%nat.
Proof.
  unfold extends. intros H. rewrite <- H at 1. rewrite length_firstn. lia.
Qed.

Lemma extends_app st0 st x : extends st0 st -> extends st0 (st ++ x)%list.
Proof.
  intros H. pose proof (extends_length _ _ H) as L. unfold extends in *.
  rewrite firstn_app. rewrite H. replace (length st0 - length st)%nat with 0%nat by lia.
  apply app_nil_r.
Qed.

Lemma extends_setitem st0 st s l v :
  extends st0 st -> (length st0 <= s)%nat -> extends st0 (st_setitem st s l v).
Proof. unfold extends, st_setitem. intros H Hs. rewrite firstn_list_set_ge; auto. Qed.

Lemma index_remap_ge st a :
  let '(a', st') := deepcopy st a in
  st' = (st ++ skipn (length st) st')%list /\
  (length st <= initial a')%nat /\ (length st <= final a')%nat.
Proof.
  unfold deepcopy. simpl. split; [|lia].
  rewrite skipn_app, skipn_all, Nat.sub_diag. reflexivity.
Qed.

Lemma extends_copy_if st0 copy st a :
  extends st0 st ->
  let '(a', st') := copy_if copy st a in
  extends st0 st' /\ (length st <= length st')%nat /\
  (copy = true -> (length st <= initial a')%nat /\ (length st <= final a')%nat).
Proof.
  intros H. destruct copy; unfold copy_if; [|split; [exact H|split; [lia|discriminate]]].
  pose proof (index_remap_ge st a) as R.
  destruct (deepcopy st a) as [a' st'] eqn:D. destruct R as [E [Hi Hf]].
  split; [rewrite E; apply extends_app, H|].
  split; [rewrite E, length_app; lia|auto].
Qed.

Lemma extends_refl st : extends st st.
Proof. unfold extends. apply firstn_all. Qed.

(** [a.star()], [a * b] and [a + b] work on deep copies of their operands:
    every state that existed before keeps its table and its index (the old
    store is a prefix of the new one), and the resulting fragment starts
    and ends at new states.  The operands can therefore be used again. *)
Theorem copying_operators_keep_states st a b :
  (let '(r, st') := star st a in
   extends st st' /\ (length st <= initial r)%nat /\ (length st <= final r)%nat) /\
  (let '(r, st') := mul st a b in
   extends st st' /\ (length st <= initial r)%nat /\ (length st <= final r)%nat) /\
  (let '(r, st') := add st a b in
   extends st st' /\ (length st <= initial r)%nat /\ (length st <= final r)%nat).
Proof.
  pose proof (extends_refl st) as R0.
  split; [|split].
  - unfold star, perform_star.
    pose proof (extends_copy_if st true st a R0) as C.
    destruct (copy_if true st a) as [a1 st1]. destruct C as [E1 [L1 F1]].
    destruct (F1 eq_refl) as [_ Hf].
    unfold perform_star_body, new_state. simpl.
    rewrite length_app. simpl.
    split; [|split; [|lia]].
    + repeat apply extends_setitem; try (rewrite ?length_app; simpl; lia).
      apply extends_app, extends_app, E1.
    + lia.
  - unfold mul, perform_concatenation.
    pose proof (extends_copy_if st true st a R0) as C.
    destruct (copy_if true st a) as [a1 st1]. destruct C as [E1 [L1 F1]].
    destruct (F1 eq_refl) as [Hi1 Hf1].
    pose proof (extends_copy_if st true st1 b E1) as C2.
    destruct (copy_if true st1 b) as [b1 st2]. destruct C2 as [E2 [L2 F2]].
    destruct (F2 eq_refl) as [Hi2 Hf2].
    unfold perform_concatenation_body. simpl.
    split; [apply extends_setitem; [exact E2 | lia]|]. lia.
  - unfold add, perform_alternative.
    pose proof (extends_copy_if st true st a R0) as C.
    destruct (copy_if true st a) as [a1 st1]. destruct C as [E1 [L1 F1]].
    destruct (F1 eq_refl) as [Hi1 Hf1].
    pose proof (extends_copy_if st true st1 b E1) as C2.
    destruct (copy_if true st1 b) as [b1 st2]. destruct C2 as [E2 [L2 F2]].
    destruct (F2 eq_refl) as [Hi2 Hf2].
    unfold perform_alternative_body, new_state. simpl.
    rewrite length_app. simpl.
    split; [|split; [|lia]].
    + repeat apply extends_setitem; try (rewrite ?length_app; simpl; lia).
      apply extends_app, extends_app, E2.
    + lia.
Qed.

(** ** regex_iterator.py: the validator *)

Lemma regex_correct_body_inl regex i c v v' :
  regex_correct_body regex i c v = inl v' ->
  Py.mem c VC.ALL_SYMBOLS = true /\
  parentheses_round v' = parentheses_round v + (if String.eqb c "(" then 1 else 0)
                         - (if String.eqb c ")" then 1 else 0) /\
  parentheses_square v' = parentheses_square v + (if String.eqb c "[" then 1 else 0)
                          - (if String.eqb c "]" then 1 else 0).
Proof.
  destruct v as [pr ps ins re se]. unfold regex_correct_body, invalid_use_check.
  cbv beta iota zeta. intros H.
  destruct (Py.mem c VC.ALL_SYMBOLS) eqn:A;
    [|destruct (ins && negb (Py.mem c VC.VALID_SYMBOLS) && negb (String.eqb c "]"));
      cbv beta iota in H; discriminate].
  split; [reflexivity|]. cbn [parentheses_round parentheses_square].
  destruct (String.eqb c "(") eqn:E1;
    [apply String.eqb_eq in E1; subst c; cbv [String.eqb Ascii.eqb Bool.eqb] in H |- *|];
  try (destruct (String.eqb c ")") eqn:E2;
    [apply String.eqb_eq in E2; subst c; cbv [String.eqb Ascii.eqb Bool.eqb] in H |- *|]);
  try (destruct (String.eqb c "[") eqn:E3;
    [apply String.eqb_eq in E3; subst c; cbv [String.eqb Ascii.eqb Bool.eqb] in H |- *|]);
  try (destruct (String.eqb c "]") eqn:E4;
    [apply String.eqb_eq in E4; subst c; cbv [String.eqb Ascii.eqb Bool.eqb] in H |- *|]);
  try discriminate;
  repeat match goal with
  | H : context [if ?b then _ else _] |- _ => destruct b; cbv beta iota zeta in H
  end; try discriminate; injection H as <-; cbn [parentheses_round parentheses_square]; lia.
Qed.

Lemma count_char_cons c x l :
  count_char c (x :: l) = (if String.eqb x c then 1 else 0) + count_char c l.
Proof.
  unfold count_char. cbn [filter]. rewrite String.eqb_sym.
  destruct (String.eqb x c); cbn [length]; [rewrite Nat2Z.inj_succ|]; lia.
Qed.

Lemma regex_correct_loop_true regex : forall letters i v e,
  regex_correct_loop regex i letters v = (true, e) ->
  Forall (fun c => Py.mem c VC.ALL_SYMBOLS = true) letters /\
  parentheses_round v + count_char "(" letters - count_char ")" letters = 0 /\
  parentheses_square v + count_char "[" letters - count_char "]" letters = 0.
Proof.
  induction letters as [|c rest IH]; intros i v e H; simpl in H.
  - injection H as H _. apply andb_prop in H. destruct H as [H1 H2].
    apply Z.eqb_eq in H1. apply Z.eqb_eq in H2. split; [constructor|].
    unfold count_char. simpl. lia.
  - destruct (regex_correct_body regex i c v) as [v'|err] eqn:B; [|discriminate].
    apply regex_correct_body_inl in B. destruct B as [A [R S]].
    destruct (IH _ _ _ H) as [F [R' S']].
    split; [constructor; assumption|]. rewrite !count_char_cons. lia.
Qed.

(** A regex accepted by [__regex_correct] consists of characters of
    [ALL_SYMBOLS] only, and has as many [(] as [)] and as many [[] as []];
    the counts are compared only at the end of the scan. *)
Theorem regex_correct_accepts_balanced r :
  fst (regex_correct r) = true ->
  Forall (fun c => Py.mem c VC.ALL_SYMBOLS = true) (Py.chars r) /\
  count_char "(" (Py.chars r) = count_char ")" (Py.chars r) /\
  count_char "[" (Py.chars r) = count_char "]" (Py.chars r).
Proof.
  unfold regex_correct. destruct (regex_correct_loop _ _ _ _) as [b e] eqn:L.
  simpl. intros ->. apply regex_correct_loop_true in L. simpl in L.
  destruct L as [F [R S]]. split; [exact F | lia].
Qed.

Lemma regex_correct_accepts_balanced_witness :
  fst (regex_correct "(a[bc])*x") = true /\
  Forall (fun c => Py.mem c VC.ALL_SYMBOLS = true) (Py.chars "(a[bc])*x") /\
  count_char "(" (Py.chars "(a[bc])*x") = count_char ")" (Py.chars "(a[bc])*x") /\
  count_char "[" (Py.chars "(a[bc])*x") = count_char "]" (Py.chars "(a[bc])*x").
Proof.
  split; [vm_compute; reflexivity|].
  apply (regex_correct_accepts_balanced "(a[bc])*x"). vm_compute. reflexivity.
Defined.

(** A regex that starts with [*], [?] or [+] is rejected, with the message
    on repeated meta symbols at position 0, whatever follows. *)
Theorem regex_correct_leading_meta m rest :
  In m VC.META_SYMBOLS -> regex_correct (m ++ rest) = (false, MetaInRow 0).
Proof.
  intros Hm. destruct Hm as [<-|[<-|[<-|[]]]]; unfold regex_correct; simpl Py.chars;
    cbn [regex_correct_loop]; unfold regex_correct_body; simpl; rewrite orb_true_r;
    reflexivity.
Qed.

Lemma regex_correct_leading_meta_witness :
  In "+" VC.META_SYMBOLS /\ regex_correct ("+" ++ "ab") = (false, MetaInRow 0).
Proof.
  split; [right; right; left; reflexivity|].
  apply regex_correct_leading_meta. right; right; left; reflexivity.
Defined.

Lemma chars_app s1 s2 : Py.chars (s1 ++ s2) = (Py.chars s1 ++ Py.chars s2)%list.
Proof. induction s1 as [|c s1 IH]; simpl; [reflexivity|]. rewrite IH. reflexivity. Qed.

Lemma length_str_app s1 s2 :
  String.length (s1 ++ s2) = (String.length s1 + String.length s2)%nat.
Proof. induction s1 as [|c s1 IH]; simpl; congruence. Qed.

Lemma len_app s1 s2 : Py.len (s1 ++ s2) = Py.len s1 + Py.len s2.
Proof. unfold Py.len. rewrite length_str_app. lia. Qed.

Lemma length_chars s : length (Py.chars s) = String.length s.
Proof. induction s as [|c s IH]; simpl; congruence. Qed.

Lemma regex_correct_body_last_backslash regex i v :
  Py.len regex = i + 1 -> exists e, regex_correct_body regex i "\" v = inr e.
Proof.
  intros H. destruct v as [pr ps ins re se]. unfold regex_correct_body.
  rewrite H, Z.eqb_refl. simpl. destruct ins; simpl; eexists; reflexivity.
Qed.

Lemma regex_correct_loop_last_backslash regex : forall letters i v,
  i + Z.of_nat (length letters) + 1 = Py.len regex ->
  fst (regex_correct_loop regex i (letters ++ ["\"]) v) = false.
Proof.
  induction letters as [|c rest IH]; intros i v H; simpl.
  - simpl in H. destruct (regex_correct_body_last_backslash regex i v) as [e E]; [lia|].
    rewrite E. reflexivity.
  - destruct (regex_correct_body regex i c v) as [v'|e]; [|reflexivity].
    apply IH. simpl in H. lia.
Qed.

(** A regex that ends with a backslash is rejected, whatever comes before:
    either an earlier check fails, or the last character is a backslash
    followed by nothing. *)
Theorem regex_correct_trailing_backslash r :
  fst (regex_correct (r ++ "\")) = false.
Proof.
  unfold regex_correct. rewrite chars_app. simpl (Py.chars "\").
  apply regex_correct_loop_last_backslash.
  rewrite len_app, length_chars. unfold Py.len. simpl. lia.
Qed.

(** ** automaton.py: the spans found by [matching] *)

Lemma dict_set_values (d : frontier) k v m :
  In m (flat_map snd (dict_set Nat.eqb d k v)) -> In m v \/ In m (flat_map snd d).
Proof.
  induction d as [|[k' v'] d IH]; cbn [dict_set flat_map snd].
  - rewrite app_nil_r. auto.
  - destruct (Nat.eqb k k'); cbn [flat_map snd]; rewrite !in_app_iff.
    + intros [H|H]; auto.
    + intros [H|H]; auto. destruct (IH H); auto.
Qed.

Lemma dict_get_values (d : frontier) k ms m :
  dict_get Nat.eqb d k = Some ms -> In m ms -> In m (flat_map snd d).
Proof.
  induction d as [|[k' v'] d IH]; simpl; [discriminate|].
  rewrite in_app_iff. destruct (Nat.eqb k k'); [intros G; injection G as <-; auto|].
  intros G Hm. right. exact (IH G Hm).
Qed.

Lemma closure_push_values (P : Z -> Prop) ix ts : forall (d : frontier) q,
  (forall m, In m ix -> P m) -> (forall m, In m (flat_map snd d) -> P m) ->
  forall m, In m (flat_map snd (fst (fold_left (closure_push ix) ts (d, q)))) -> P m.
Proof.
  induction ts as [|t ts IH]; intros d q Hix Hd; [exact Hd|].
  cbn [fold_left]. destruct (closure_push ix (d, q) t) as [d' q'] eqn:E.
  apply IH; [exact Hix|]. unfold closure_push in E. cbv beta iota zeta in E.
  destruct (dict_get Nat.eqb d t) as [old|] eqn:G; injection E as <- _;
    intros m Hm; apply dict_set_values in Hm; destruct Hm as [Hm|Hm]; auto.
  apply In_zunion in Hm. destruct Hm as [Hm|Hm]; auto.
  apply Hd. exact (dict_get_values d t old m G Hm).
Qed.

Lemma closure_loop_values (P : Z -> Prop) fuel : forall st (d : frontier) q r st',
  (forall m, In m (flat_map snd d) -> P m) ->
  closure_loop fuel st d q = Some (r, st') -> forall m, In m (flat_map snd r) -> P m.
Proof.
  induction fuel as [|f IH]; intros st d q r st' Hd H.
  - destruct q; simpl in H; [injection H as <- _; exact Hd | discriminate].
  - destruct q as [|s q]; simpl in H; [injection H as <- _; exact Hd|].
    destruct (dict_get Nat.eqb d s) as [ix|] eqn:G; [|discriminate].
    destruct (st_contains st s EPSILON).
    + destruct (st_getitem st s EPSILON) as [ts st1].
      pose proof (closure_push_values P ix ts d q) as F.
      destruct (fold_left (closure_push ix) ts (d, q)) as [d1 q1].
      apply (IH st1 d1 q1 r st'); [|exact H].
      apply F; [|exact Hd]. intros m Hm. apply Hd. exact (dict_get_values d s ix m G Hm).
    + exact (IH st d q r st' Hd H).
Qed.

Lemma trans_push_values (P : Z -> Prop) ix ts : forall (r : frontier),
  (forall m, In m ix -> P m) -> (forall m, In m (flat_map snd r) -> P m) ->
  forall m, In m (flat_map snd (fold_left (trans_push ix) ts r)) -> P m.
Proof.
  induction ts as [|t0 ts IH]; intros r Hix Hr; [exact Hr|].
  cbn [fold_left]. apply IH; [exact Hix|]. intros m Hm. unfold trans_push in Hm.
  destruct (dict_get Nat.eqb r t0) as [old|] eqn:G0;
    apply dict_set_values in Hm; destruct Hm as [Hm|Hm]; auto.
  apply In_zunion in Hm. destruct Hm as [Hm|Hm]; auto.
  apply Hr. exact (dict_get_values r t0 old m G0 Hm).
Qed.

Lemma trans_loop_values (P : Z -> Prop) st (items : frontier) :
  forall letter (res : frontier) r st',
  (forall m, In m (flat_map snd items) -> P m) -> (forall m, In m (flat_map snd res) -> P m) ->
  trans_loop st items letter res = (r, st') -> forall m, In m (flat_map snd r) -> P m.
Proof.
  induction items as [|[s ix] rest IH]; intros letter res r st' Hi Hres H;
    cbn [trans_loop] in H.
  - injection H as <- _. exact Hres.
  - cbn [flat_map snd] in Hi.
    destruct (trans_label st s letter) as [alt letter'].
    destruct (st_contains st s alt) eqn:C.
    + rewrite st_getitem_contains in H by exact C.
      apply (IH letter' (fold_left (trans_push ix) (st_get st s alt []) res) r st');
        [| |exact H].
      * intros m Hm. apply Hi, in_app_iff. auto.
      * apply trans_push_values; [|exact Hres]. intros m Hm. apply Hi, in_app_iff. auto.
    + apply (IH letter' res r st'); [|exact Hres|exact H].
      intros m Hm. apply Hi, in_app_iff. auto.
Qed.

Lemma zmin_In s z : zmin s = Some z -> In z s.
Proof.
  destruct s as [|x r]; simpl; [discriminate|]. intros H. injection H as <-.
  revert x. induction r as [|y r IH]; intros x; simpl; [auto|].
  specialize (IH (Z.min x y)). destruct (Z.min_spec x y) as [[_ E]|[_ E]];
    rewrite E in *; simpl in IH; tauto.
Qed.

Lemma slice_nonempty_lt text s e :
  0 <= s -> 0 <= e <= Py.len text -> Py.slice text s e <> "" -> s < e.
Proof.
  intros Hs He Hne. destruct (Z.lt_ge_cases s e) as [L|L]; [exact L|].
  exfalso. apply Hne. unfold Py.slice, Py.norm. cbv zeta.
  replace (s <? 0) with false by (symmetry; apply Z.ltb_ge; lia).
  replace (e <? 0) with false by (symmetry; apply Z.ltb_ge; lia).
  destruct (Z.max 0 (Z.min s (Py.len text)) <? Z.max 0 (Z.min e (Py.len text))) eqn:C;
    [apply Z.ltb_lt in C; lia | reflexivity].
Qed.

Lemma matching_step_valid fuel a text i letter st (d : frontier) d' st' r :
  0 <= i -> (forall m, In m (flat_map snd d) -> -1 <= m) ->
  matching_step fuel a text i letter st d = Some (d', st', r) ->
  st' = st /\ (forall m, In m (flat_map snd d') -> -1 <= m) /\
  forall p, r = Some p ->
    0 <= fst p /\ snd p = i + 1 /\ Py.slice text (fst p) (snd p) <> "" /\
    test_word fuel st a (Py.slice text (fst p) (snd p)) = Some (true, st).
Proof.
  intros Hi Hd H. unfold matching_step in H.
  destruct (trans st d letter) as [td st1] eqn:T.
  assert (st1 = st) by exact (trans_store _ _ _ _ _ T). subst st1.
  assert (Htd : forall m, In m (flat_map snd td) -> -1 <= m).
  { unfold trans in T. apply (trans_loop_values _ st d letter [] td st Hd); [simpl; tauto|exact T]. }
  match type of H with context [closure fuel st ?x] =>
    assert (Hx : forall m, In m (flat_map snd x) -> -1 <= m);
    [| destruct (closure fuel st x) as [[d2 st2]|] eqn:C; [|discriminate]] end.
  { destruct (dict_get Nat.eqb td (initial a)) as [s0|] eqn:G; intros m Hm;
      apply dict_set_values in Hm; destruct Hm as [Hm|Hm]; auto.
    - apply In_zunion in Hm. destruct Hm as [Hm|[<-|[]]]; [|lia].
      apply Htd. exact (dict_get_values _ _ _ _ G Hm).
    - destruct Hm as [<-|[]]. lia. }
  assert (st2 = st) by exact (closure_store _ _ _ _ _ C). subst st2.
  assert (Hd2 : forall m, In m (flat_map snd d2) -> -1 <= m)
    by exact (closure_loop_values _ _ _ _ _ _ _ Hx C).
  cbv beta iota in H.
  destruct (dict_get Nat.eqb d2 (final a)) as [ms|] eqn:F.
  2:{ injection H as <- <- <-. split; [reflexivity|]. split; [exact Hd2|]. discriminate. }
  destruct (zmin ms) as [z|] eqn:Z; [|discriminate].
  assert (Hz : -1 <= z) by (apply Hd2; exact (dict_get_values _ _ _ _ F (zmin_In _ _ Z))).
  destruct (String.eqb (Py.slice text (z + 1) (i + 1)) "") eqn:E.
  { injection H as <- <- <-. split; [reflexivity|]. split; [exact Hd2|]. discriminate. }
  destruct (test_word fuel st a (Py.slice text (z + 1) (i + 1))) as [[ok st3]|] eqn:W;
    [|discriminate].
  assert (st3 = st) by exact (test_word_store _ _ _ _ _ _ W). subst st3.
  destruct ok; injection H as <- <- <-; (split; [reflexivity|]); (split; [exact Hd2|]);
    [|discriminate].
  intros p Hp. injection Hp as <-. cbn [fst snd].
  split; [lia|]. split; [reflexivity|]. split; [apply String.eqb_neq; exact E|exact W].
Qed.

Lemma scan_loop_valid fuel a text letters : forall i st (d : frontier) recs,
  0 <= i -> i + Z.of_nat (length letters) = Py.len text ->
  (forall m, In m (flat_map snd d) -> -1 <= m) ->
  scan_loop fuel a text i letters st d = Some recs ->
  Forall (fun p => 0 <= fst p < snd p /\ snd p <= Py.len text /\
    test_word fuel st a (Py.slice text (fst p) (snd p)) = Some (true, st)) recs.
Proof.
  induction letters as [|c rest IH]; intros i st d recs Hi Hl Hd H; cbn [scan_loop] in H.
  - injection H as <-. constructor.
  - cbn [length] in Hl.
    destruct (matching_step fuel a text i c st d) as [[[d' st'] r]|] eqn:M; [|discriminate].
    destruct (matching_step_valid _ _ _ _ _ _ _ _ _ _ Hi Hd M) as [-> [Hd' Hr]].
    destruct (scan_loop fuel a text (i + 1) rest st d') as [recs'|] eqn:S; [|discriminate].
    injection H as <-.
    assert (Hrest := IH (i + 1) st d' recs' ltac:(lia) ltac:(lia) Hd' S).
    destruct r as [p|]; [|exact Hrest].
    constructor; [|exact Hrest].
    destruct (Hr p eq_refl) as [Hs [He [Hne Hw]]].
    assert (snd p <= Py.len text) by lia.
    split; [|split; [assumption|exact Hw]].
    split; [exact Hs|]. apply (slice_nonempty_lt text); [exact Hs|lia|exact Hne].
Qed.

Lemma dict_set_In_Z (o : @dict Z Z) k v x :
  In x (dict_set Z.eqb o k v) -> x = (k, v) \/ In x o.
Proof.
  induction o as [|[k' v'] o IH]; simpl; [intros [H|[]]; auto|].
  destruct (Z.eqb k k') eqn:E; simpl.
  - apply Z.eqb_eq in E. subst. intros [H|H]; auto.
  - intros [H|H]; [auto|]. destruct (IH H); auto.
Qed.

Lemma fold_rec_set_In recs : forall o x,
  In x (fold_left rec_set recs o) -> In x o \/ In x recs.
Proof.
  induction recs as [|p recs IH]; intros o x H; simpl in H |- *; [auto|].
  destruct (IH _ _ H) as [H1|H1]; [|auto].
  unfold rec_set in H1. apply dict_set_In_Z in H1. destruct p. simpl in H1.
  destruct H1 as [->|H1]; auto.
Qed.

(** [__matching] and [matching] only return spans of the text: every pair
    [(s, e)] satisfies [0 <= s < e <= len(text)], and [test_word] accepts
    [text[s:e]] without touching the store. *)
Theorem matching_spans_valid fuel st a text occ st' :
  matching fuel st a text = Some (occ, st') ->
  forall s e, In (s, e) occ ->
    0 <= s < e /\ e <= Py.len text /\
    test_word fuel st a (Py.slice text s e) = Some (true, st).
Proof.
  intros H s e Hin.
  destruct (matching_records _ _ _ _ _ _ H) as [recs [Hs [-> _]]].
  unfold scan_records in Hs.
  destruct (closure fuel st [(initial a, [-1])]) as [[d st1]|] eqn:C; [|discriminate].
  assert (st1 = st) by exact (closure_store _ _ _ _ _ C). subst st1.
  assert (Hd : forall m, In m (flat_map snd d) -> -1 <= m).
  { refine (closure_loop_values _ _ _ _ _ _ _ _ C). simpl. intros m [<-|[]]. lia. }
  assert (Hl : 0 + Z.of_nat (length (Py.chars text)) = Py.len text)
    by (rewrite length_chars; reflexivity).
  pose proof (scan_loop_valid fuel a text (Py.chars text) 0 st d recs (Z.le_refl 0) Hl Hd Hs)
    as Hall.
  destruct (fold_rec_set_In _ _ _ Hin) as [[]|Hr].
  rewrite Forall_forall in Hall. exact (Hall _ Hr).
Qed.

Lemma matching_spans_valid_witness :
  matching FUEL ab_star_a_store (mkAutomaton 0 7 false) "xabbaab" =
    Some ([(1, 5); (4, 6)], ab_star_a_store) /\
  0 <= 1 < 5 /\ 5 <= Py.len "xabbaab" /\
  test_word FUEL ab_star_a_store (mkAutomaton 0 7 false) (Py.slice "xabbaab" 1 5) =
    Some (true, ab_star_a_store).
Proof.
  split; [vm_compute; reflexivity|].
  apply (matching_spans_valid FUEL ab_star_a_store (mkAutomaton 0 7 false) "xabbaab"
           [(1, 5); (4, 6)] ab_star_a_store).
  - vm_compute. reflexivity.
  - left. reflexivity.
Defined.

(** ** automaton.py: [__bfs_generator] *)

Lemma bfs_push_fold ns : forall vis q, NoDup vis ->
  let '(vis', q') :=
    fold_left (fun '(vis, q) nbh =>
                 if existsb (Nat.eqb nbh) vis then (vis, q)
                 else ((vis ++ [nbh])%list, (q ++ [nbh])%list)) ns (vis, q) in
  exists new, vis' = (vis ++ new)%list /\ q' = (q ++ new)%list /\ NoDup vis' /\
    (forall x, In x new -> In x ns) /\ (forall x, In x ns \/ In x vis -> In x vis').
Proof.
  induction ns as [|n ns IH]; intros vis q Hn; cbn [fold_left].
  - exists []. rewrite !app_nil_r. repeat split; auto.
    intros x [[]|H]; exact H.
  - cbv beta iota. destruct (existsb (Nat.eqb n) vis) eqn:E.
    + specialize (IH vis q Hn).
      destruct (fold_left _ ns (vis, q)) as [vis' q'].
      destruct IH as [new [-> [-> [Hn' [Hnew Hin]]]]].
      exists new. repeat split; auto.
      * intros x Hx. right. auto.
      * intros x [[<-|Hx]|Hx]; apply Hin; auto.
        right. apply existsb_exists in E. destruct E as [y [Hy Ey]].
        apply Nat.eqb_eq in Ey. subst. exact Hy.
    + assert (Hn1 : NoDup (vis ++ [n])%list).
      { apply NoDup_app; [exact Hn|constructor; [intros []|constructor]|].
        intros x Hx [<-|[]]. assert (existsb (Nat.eqb n) vis = true) as E'
            by (apply existsb_exists; exists n; split; [exact Hx|apply Nat.eqb_refl]).
          congruence. }
      specialize (IH (vis ++ [n])%list (q ++ [n])%list Hn1).
      destruct (fold_left _ ns ((vis ++ [n])%list, (q ++ [n])%list)) as [vis' q'].
      destruct IH as [new [-> [-> [Hn' [Hnew Hin]]]]].
      exists (n :: new). rewrite <- !app_assoc in *. cbn [app] in *. repeat split; auto.
      * intros x [<-|Hx]; [left; reflexivity|right; auto].
      * intros x [[<-|Hx]|Hx]; apply Hin; rewrite ?in_app_iff; cbn [In]; auto.
Qed.

Lemma bfs_loop_inv fuel st x : forall visited queue out res,
  visited = (out ++ queue)%list -> NoDup visited ->
  (forall n, In n visited -> succ_reach st x n) ->
  (forall n m, In n out -> In m (successors st n) -> In m visited) ->
  bfs_loop fuel st visited queue out = Some res ->
  (exists r, res = (visited ++ r)%list) /\ NoDup res /\
  (forall n, In n res -> succ_reach st x n) /\
  (forall n m, In n res -> In m (successors st n) -> In m res).
Proof.
  induction fuel as [|f IH]; intros visited queue out res Hv Hnd Hr Hc H.
  - destruct queue; cbn [bfs_loop] in H; [|discriminate].
    injection H as <-. rewrite app_nil_r in Hv. subst visited.
    split; [exists []; symmetry; apply app_nil_r|]. auto.
  - destruct queue as [|node q]; cbn [bfs_loop] in H.
    + injection H as <-. rewrite app_nil_r in Hv. subst visited.
      split; [exists []; symmetry; apply app_nil_r|]. auto.
    + pose proof (bfs_push_fold (successors st node) visited q Hnd) as F.
      destruct (fold_left _ (successors st node) (visited, q)) as [vis' q'].
      destruct F as [new [-> [-> [Hnd' [Hnew Hin]]]]].
      assert (Hnode : In node visited) by (subst; apply in_app_iff; right; left; reflexivity).
      destruct (IH (visited ++ new)%list (q ++ new)%list (out ++ [node])%list res)
        as [[r Hres] Hrest]; auto.
      * subst visited. rewrite <- !app_assoc. reflexivity.
      * intros n Hn. apply in_app_iff in Hn. destruct Hn as [Hn|Hn]; [auto|].
        apply succ_reach_step with node; auto.
      * intros n m Hn Hm. apply in_app_iff in Hn. destruct Hn as [Hn|[<-|[]]].
        -- apply in_app_iff. left. exact (Hc n m Hn Hm).
        -- apply Hin. left. exact Hm.
      * split; [exists (new ++ r)%list; rewrite app_assoc; exact Hres|exact Hrest].
Qed.

Lemma bfs_generator_reachable_core fuel st a res :
  bfs_generator fuel st a = Some res ->
  (forall n, succ_reach st (initial a) n -> In n res) /\
  NoDup res /\ hd_error res = Some (initial a) /\
  (forall n, In n res -> succ_reach st (initial a) n).
Proof.
  unfold bfs_generator. intros H.
  destruct (bfs_loop_inv fuel st (initial a) [initial a] [initial a] [] res)
    as [[r ->] [Hnd [Hr Hc]]]; auto.
  - constructor; [intros []|constructor].
  - intros n [<-|[]]. constructor.
  - intros n m [].
  - split; [|split; [exact Hnd|split; [reflexivity|exact Hr]]].
    intros n R. induction R as [|y z _ IHR Hz].
    + left. reflexivity.
    + exact (Hc y z IHR Hz).
Qed.

(** [__bfs_generator] yields the initial state first, yields no state twice,
    and yields exactly the states reachable from the initial state along
    the transitions of any label. *)
Theorem bfs_generator_reachable fuel st a res :
  bfs_generator fuel st a = Some res ->
  NoDup res /\ hd_error res = Some (initial a) /\
  forall n, In n res <-> succ_reach st (initial a) n.
Proof.
  intros H. destruct (bfs_generator_reachable_core fuel st a res H) as [Hc [Hnd [Hh Hr]]].
  split; [exact Hnd|]. split; [exact Hh|]. intros n. split; [apply Hr|apply Hc].
Qed.

Lemma bfs_generator_reachable_witness :
  bfs_generator FUEL ab_star_a_store (mkAutomaton 4 7 false) =
    Some [4; 2; 5; 3; 6; 7]%nat /\
  NoDup [4; 2; 5; 3; 6; 7]%nat /\ hd_error [4; 2; 5; 3; 6; 7]%nat = Some 4%nat /\
  forall n, In n [4; 2; 5; 3; 6; 7]%nat <-> succ_reach ab_star_a_store 4 n.
Proof.
  split; [vm_compute; reflexivity|].
  apply (bfs_generator_reachable FUEL ab_star_a_store (mkAutomaton 4 7 false)).
  vm_compute. reflexivity.
Defined.

(** ** automaton.py: [__highlight_found] *)

Lemma In_insert_Z x a l : In x (insert_Z a l) <-> a = x \/ In x l.
Proof.
  induction l as [|y l IH]; cbn [insert_Z In]; [tauto|].
  destruct (a <=? y); cbn [In]; [tauto|]. rewrite IH. tauto.
Qed.

Lemma In_sorted_Z x l : In x (sorted_Z l) <-> In x l.
Proof.
  induction l as [|a l IH]; cbn [sorted_Z fold_right In]; [tauto|].
  unfold sorted_Z in IH. rewrite In_insert_Z, IH. intuition.
Qed.

Lemma insert_Z_sorted a l : StronglySorted Z.le l -> StronglySorted Z.le (insert_Z a l).
Proof.
  induction l as [|y l IH]; intros H; cbn [insert_Z].
  - repeat constructor.
  - inversion H as [|? ? Hl Hy]; subst. destruct (a <=? y) eqn:E.
    + apply Z.leb_le in E. constructor; [exact H|]. constructor; [exact E|].
      eapply Forall_impl; [|exact Hy]. intros z Hz. lia.
    + apply Z.leb_gt in E. constructor; [exact (IH Hl)|].
      apply Forall_forall. intros z Hz. apply In_insert_Z in Hz.
      destruct Hz as [<-|Hz]; [lia|]. rewrite Forall_forall in Hy. auto.
Qed.

Lemma sorted_Z_sorted l : StronglySorted Z.le (sorted_Z l).
Proof.
  induction l as [|a l IH]; [constructor|]. apply insert_Z_sorted, IH.
Qed.

Lemma dict_get_Z_In (o : @dict Z Z) k v : dict_get Z.eqb o k = Some v -> In (k, v) o.
Proof.
  induction o as [|[k' v'] o IH]; simpl; [discriminate|].
  destruct (Z.eqb k k') eqn:E; intros H.
  - apply Z.eqb_eq in E. injection H as <-. subst. auto.
  - right. auto.
Qed.

Lemma dict_get_Z_keys (o : @dict Z Z) k : In k (map fst o) -> exists v, dict_get Z.eqb o k = Some v.
Proof.
  induction o as [|[k' v'] o IH]; simpl; [tauto|].
  destruct (Z.eqb k k') eqn:E; [eauto|]. intros [<-|H]; [rewrite Z.eqb_refl in E; discriminate|auto].
Qed.

(** The occurrences are looked up by their own keys, so [__highlight_found]
    never raises [KeyError], whatever the colouring function. *)
Theorem highlight_found_total colored text occurrences :
  highlight_found colored text occurrences <> None.
Proof.
  unfold highlight_found.
  assert (Hk : forall k, In k (sorted_Z (map fst occurrences)) -> In k (map fst occurrences))
    by (intros k; apply In_sorted_Z).
  revert Hk. generalize (sorted_Z (map fst occurrences)) as ks, ""%string as p, 0 as b.
  induction ks as [|k ks IH]; intros p b Hk; cbn [highlight_loop]; [discriminate|].
  destruct (dict_get_Z_keys occurrences k (Hk k (or_introl eq_refl))) as [e ->].
  apply IH. intros k' Hk'. apply Hk. right. exact Hk'.
Qed.

Lemma str_app_assoc s1 s2 s3 : (s1 ++ s2) ++ s3 = s1 ++ (s2 ++ s3).
Proof. induction s1 as [|c s1 IH]; simpl; congruence. Qed.

Lemma str_app_nil_r s : s ++ "" = s.
Proof. induction s as [|c s IH]; simpl; congruence. Qed.

Lemma substring_zero_len n s : substring n 0 s = "".
Proof.
  revert s; induction n as [|n IH]; intros [|c s]; simpl; auto.
Qed.

Lemma substring_0_app m k s :
  (m + k <= String.length s)%nat ->
  substring 0 m s ++ substring m k s = substring 0 (m + k) s.
Proof.
  revert m; induction s as [|c s IH]; intros m H; simpl in H.
  - assert (m = 0%nat) by lia. assert (k = 0%nat) by lia. subst. reflexivity.
  - destruct m as [|m].
    + rewrite substring_zero_len. reflexivity.
    + cbn [substring plus]. simpl. rewrite IH by lia. reflexivity.
Qed.

Lemma substring_app n m k s :
  (n + m + k <= String.length s)%nat ->
  substring n m s ++ substring (n + m) k s = substring n (m + k) s.
Proof.
  revert s; induction n as [|n IH]; intros s H.
  - apply substring_0_app. exact H.
  - destruct s as [|c s]; simpl in H; [lia|]. cbn [substring plus]. apply IH. lia.
Qed.

Lemma substring_full s : substring 0 (String.length s) s = s.
Proof. induction s as [|c s IH]; simpl; congruence. Qed.

Lemma slice_substring t a b :
  0 <= a <= b -> b <= Py.len t ->
  Py.slice t a b = substring (Z.to_nat a) (Z.to_nat (b - a)) t.
Proof.
  intros Ha Hb. unfold Py.slice, Py.norm. cbv zeta.
  replace (a <? 0) with false by (symmetry; apply Z.ltb_ge; lia).
  replace (b <? 0) with false by (symmetry; apply Z.ltb_ge; lia).
  replace (Z.max 0 (Z.min a (Py.len t))) with a by lia.
  replace (Z.max 0 (Z.min b (Py.len t))) with b by lia.
  destruct (a <? b) eqn:L; [reflexivity|].
  apply Z.ltb_ge in L. replace (b - a) with 0 by lia. simpl.
  symmetry. apply substring_zero_len.
Qed.

Lemma slice_app t a b c :
  0 <= a <= b -> b <= c <= Py.len t ->
  Py.slice t a b ++ Py.slice t b c = Py.slice t a c.
Proof.
  intros Hab Hbc. rewrite !slice_substring by lia.
  replace (Z.to_nat b) with (Z.to_nat a + Z.to_nat (b - a))%nat by lia.
  replace (Z.to_nat (c - a)) with (Z.to_nat (b - a) + Z.to_nat (c - b))%nat by lia.
  apply substring_app. unfold Py.len in Hbc. lia.
Qed.

Lemma slice_full t : Py.slice t 0 (Py.len t) = t.
Proof.
  rewrite slice_substring by (unfold Py.len; lia). unfold Py.len.
  rewrite Z.sub_0_r, Nat2Z.id. apply substring_full.
Qed.

Lemma highlight_loop_plain text occurrences :
  (forall s e, In (s, e) occurrences -> 0 <= s < e /\ e <= Py.len text) ->
  (forall s1 e1 s2 e2, In (s1, e1) occurrences -> In (s2, e2) occurrences ->
     s1 < s2 -> e1 <= e2) ->
  forall ks b, StronglySorted Z.le ks -> (forall k, In k ks -> In k (map fst occurrences)) ->
  0 <= b <= Py.len text ->
  (forall k e, In k ks -> dict_get Z.eqb occurrences k = Some e -> b <= e) ->
  highlight_loop (fun s => s) text occurrences ks (Py.slice text 0 b) b = Some text.
Proof.
  intros Hv Hm ks. induction ks as [|k ks IH]; intros b Hs Hk Hb He; cbn [highlight_loop].
  - unfold Py.slice_from. rewrite slice_app by lia. rewrite slice_full. reflexivity.
  - destruct (dict_get_Z_keys occurrences k (Hk k (or_introl eq_refl))) as [e Ge].
    rewrite Ge.
    pose proof (Hv k e (dict_get_Z_In _ _ _ Ge)) as Hke.
    pose proof (He k e (or_introl eq_refl) Ge) as Hbe.
    inversion Hs as [|? ? Hs' Hall]; subst.
    replace (Py.slice text 0 b ++
             (Py.slice text b (if k <? b then b else k) ++
              Py.slice text (if k <? b then b else k) e))
      with (Py.slice text 0 e).
    + apply IH; auto.
      * intros k' Hk'. apply Hk. right. exact Hk'.
      * lia.
      * intros k' e' Hk' Ge'. rewrite Forall_forall in Hall.
        pose proof (Hall k' Hk') as Hle.
        destruct (Z.eq_dec k k') as [<-|Hne].
        -- rewrite Ge in Ge'. injection Ge' as <-. lia.
        -- apply (Hm k e k' e'); [exact (dict_get_Z_In _ _ _ Ge)|exact (dict_get_Z_In _ _ _ Ge')|lia].
    + destruct (k <? b) eqn:L; [apply Z.ltb_lt in L|apply Z.ltb_ge in L];
        rewrite slice_app, slice_app by lia; reflexivity.
Qed.

(** With a colouring that leaves the text as it is, [__highlight_found]
    gives the text back when the spans lie in the text and a span that
    starts later never ends earlier. *)
Theorem highlight_found_plain text occurrences :
  (forall s e, In (s, e) occurrences -> 0 <= s < e /\ e <= Py.len text) ->
  (forall s1 e1 s2 e2, In (s1, e1) occurrences -> In (s2, e2) occurrences ->
     s1 < s2 -> e1 <= e2) ->
  highlight_found (fun s => s) text occurrences = Some text.
Proof.
  intros Hv Hm. unfold highlight_found.
  replace ""%string with (Py.slice text 0 0)
    by (rewrite slice_substring by (unfold Py.len; lia); apply substring_zero_len).
  apply highlight_loop_plain; auto.
  - apply sorted_Z_sorted.
  - intros k Hk. apply In_sorted_Z. exact Hk.
  - unfold Py.len. lia.
  - intros k e _ Ge. pose proof (Hv k e (dict_get_Z_In _ _ _ Ge)). lia.
Qed.

Lemma highlight_found_plain_witness :
  highlight_found (fun s => s) "xabcdx" [(2, 5); (1, 3)] = Some "xabcdx".
Proof.
  apply highlight_found_plain.
  - intros s e [H|[H|[]]]; injection H as <- <-; vm_compute; intuition discriminate.
  - intros s1 e1 s2 e2 [H1|[H1|[]]] [H2|[H2|[]]]; injection H1 as <- <-;
      injection H2 as <- <-; lia.
Defined.

(** ** regex_iterator.py: [__convert_to_standard_re_helper] *)

Lemma get_chars n s a : String.get n s = Some a -> In (String a EmptyString) (Py.chars s).
Proof.
  revert n; induction s as [|c s IH]; intros n H; [discriminate|].
  destruct n as [|n]; simpl in H |- *; [injection H as <-; auto|right; exact (IH n H)].
Qed.

Lemma get_some n s : (n < String.length s)%nat -> exists a, String.get n s = Some a.
Proof.
  revert n; induction s as [|c s IH]; intros n H; simpl in H; [lia|].
  destruct n as [|n]; simpl; [eauto|apply IH; lia].
Qed.

Lemma py_get_char s i :
  0 <= i < Py.len s -> exists c, Py.get s i = Some c /\ In c (Py.chars s).
Proof.
  intros Hi. unfold Py.get. cbv zeta.
  replace (i <? 0) with false by (symmetry; apply Z.ltb_ge; lia).
  replace ((0 <=? i) && (i <? Py.len s)) with true
    by (symmetry; apply andb_true_iff; split; [apply Z.leb_le|apply Z.ltb_lt]; lia).
  unfold Py.len in Hi. destruct (get_some (Z.to_nat i) s ltac:(lia)) as [a Ha].
  rewrite Ha. exists (String a EmptyString). split; [reflexivity|exact (get_chars _ _ _ Ha)].
Qed.

(** A regex with no [[], [(], [+] or [?] is left as it is by
    [__convert_to_standard_re_helper], with an empty [parenthesis_begin]. *)
Theorem convert_helper_plain fuel text :
  (forall c, In c (Py.chars text) -> c <> "[" /\ c <> "(" /\ c <> "+" /\ c <> "?") ->
  Py.len text < Z.of_nat fuel ->
  convert_helper fuel text = Some (text, []).
Proof.
  intros Hc Hf. destruct fuel as [|f]; [simpl in Hf; unfold Py.len in Hf; lia|].
  cbn [convert_helper].
  match goal with |- context [?F f text (0 + 1) []] =>
    assert (Hl : forall lf i, 0 <= i <= Py.len text -> Py.len text - i < Z.of_nat lf ->
                 F lf text i [] = Some (text, []));
    [|transitivity (F (S f) text 0 []); [reflexivity|refine (Hl (S f) 0 _ _)]] end.
  2,3: unfold Py.len in *; lia.
  induction lf as [|lf IH]; intros i Hi Hb; [lia|].
  cbv beta iota fix.
  destruct (i <? Py.len text) eqn:L; [|reflexivity].
  apply Z.ltb_lt in L.
  destruct (py_get_char text i ltac:(lia)) as [c [-> Hin]].
  destruct (Hc c Hin) as [C1 [C2 [C3 C4]]].
  apply String.eqb_neq in C1, C2, C3, C4. unfold VC.ONE_CLOSURE, VC.ONE_OR_NONE.
  rewrite C1, C2, C3, C4. apply IH; lia.
Qed.

Lemma convert_helper_plain_witness :
  convert_helper FUEL "ab*c" = Some ("ab*c", []).
Proof.
  apply convert_helper_plain.
  - intros c Hc. simpl in Hc.
    destruct Hc as [<-|[<-|[<-|[<-|[]]]]]; repeat split; discriminate.
  - vm_compute. reflexivity.
Defined.

Lemma py_get_app pre a s :
  Py.get (pre ++ String a s) (Py.len pre) = Some (String a EmptyString).
Proof.
  unfold Py.get, Py.len. cbv zeta. rewrite length_str_app. cbn [String.length].
  replace (Z.of_nat (String.length pre) <? 0) with false by (symmetry; apply Z.ltb_ge; lia).
  replace ((0 <=? Z.of_nat (String.length pre)) &&
           (Z.of_nat (String.length pre) <? Z.of_nat (String.length pre + S (String.length s))))
    with true by (symmetry; apply andb_true_iff; split; [apply Z.leb_le|apply Z.ltb_lt]; lia).
  rewrite Nat2Z.id. induction pre as [|c pre IH]; simpl; [reflexivity|exact IH].
Qed.

Lemma find_square_close_spec w : forall fuel pre rest,
  ~ In "]" (Py.chars w) -> Py.len w < Z.of_nat fuel ->
  find_square_close fuel (pre ++ w ++ "]" ++ rest) (Py.len pre) = Some (Py.len pre + Py.len w).
Proof.
  induction w as [|a w IH]; intros fuel pre rest Hw Hf;
    (destruct fuel as [|f]; [unfold Py.len in Hf; simpl in Hf; lia|]); cbn [find_square_close].
  - cbn [append]. rewrite py_get_app. cbv [String.eqb Ascii.eqb Bool.eqb]. f_equal.
    unfold Py.len. simpl. lia.
  - cbn [append]. rewrite py_get_app.
    destruct (String.eqb (String a EmptyString) "]") eqn:E.
    + apply String.eqb_eq in E. exfalso. apply Hw. left. exact E.
    + replace (pre ++ String a (w ++ String "]" rest)) with ((pre ++ String a "") ++ w ++ "]" ++ rest)
        by (rewrite str_app_assoc; reflexivity).
      replace (Py.len pre + 1) with (Py.len (pre ++ String a "")) by (rewrite len_app; reflexivity).
      rewrite IH.
      * rewrite len_app. unfold Py.len. simpl String.length. f_equal. lia.
      * intros H. apply Hw. right. exact H.
      * unfold Py.len in *. simpl String.length in Hf. lia.
Qed.

Lemma substring_prefix w post : substring 0 (String.length w) (w ++ post) = w.
Proof. induction w as [|c w IH]; simpl; [destruct post; reflexivity|congruence]. Qed.

Lemma substring_skip pre s n m :
  substring (String.length pre + n) m (pre ++ s) = substring n m s.
Proof. induction pre as [|c pre IH]; simpl; [reflexivity|exact IH]. Qed.

Lemma slice_mid pre w post :
  Py.slice (pre ++ w ++ post) (Py.len pre) (Py.len pre + Py.len w) = w.
Proof.
  rewrite slice_substring by (rewrite ?len_app; unfold Py.len; lia).
  unfold Py.len. rewrite Nat2Z.id.
  replace (Z.to_nat (Z.of_nat (String.length pre) + Z.of_nat (String.length w) -
                     Z.of_nat (String.length pre))) with (String.length w) by lia.
  rewrite <- (Nat.add_0_r (String.length pre)), substring_skip. apply substring_prefix.
Qed.

(** A class [[w]] with no [] ] inside becomes the sum [(w1+...+wk)] of its
    characters, and [parenthesis_begin] maps the index of the new closing
    parenthesis to 0. *)
Theorem convert_helper_square fuel w :
  ~ In "]" (Py.chars w) -> Py.len w + 2 < Z.of_nat fuel ->
  convert_helper fuel ("[" ++ w ++ "]") =
    Some ("(" ++ Py.join "+" (Py.chars w) ++ ")",
          [(Py.len (Py.join "+" (Py.chars w)) + 1, 0)]).
Proof.
  intros Hw Hf. destruct fuel as [|f]; [unfold Py.len in Hf; simpl in Hf; lia|].
  cbn [convert_helper].
  replace (0 <? Py.len ("[" ++ w ++ "]")) with true
    by (symmetry; apply Z.ltb_lt; unfold Py.len; cbn [append String.length]; lia).
  assert (G0 : Py.get ("[" ++ w ++ "]") 0 = Some "[") by exact (py_get_app "" "["%char (w ++ "]")).
  rewrite G0. cbv beta iota. rewrite String.eqb_refl.
  assert (G1 : find_square_close (S f) ("[" ++ w ++ "]") (0 + 1) = Some (1 + Py.len w)).
  { exact (find_square_close_spec w (S f) "[" "" Hw ltac:(lia)). }
  rewrite G1. cbv beta iota.
  assert (G2 : Py.slice ("[" ++ w ++ "]") (0 + 1) (1 + Py.len w) = w)
    by exact (slice_mid "[" w "]").
  rewrite G2.
  assert (HT : Py.len ("[" ++ w ++ "]") = Py.len w + 2)
    by (unfold Py.len; cbn [append String.length]; rewrite length_str_app;
        cbn [String.length]; lia).
  assert (G3 : Py.slice ("[" ++ w ++ "]") 0 0 = "").
  { rewrite slice_substring by (unfold Py.len; lia). exact (substring_zero_len _ _). }
  assert (G4 : Py.slice_from ("[" ++ w ++ "]") (1 + Py.len w + 1) = "").
  { unfold Py.slice_from. rewrite slice_substring by (unfold Py.len in *; lia).
    rewrite HT. replace (Py.len w + 2 - (1 + Py.len w + 1)) with 0 by lia.
    exact (substring_zero_len _ _). }
  rewrite G3, G4, str_app_nil_r. change (EmptyString ++ ?x) with x. cbn [dict_set].
  set (J := Py.join "+" (Py.chars w)).
  assert (HP : Py.len ("(" ++ J ++ ")") = Py.len J + 2)
    by (rewrite !len_app; change (Py.len "(") with 1; change (Py.len ")") with 1; lia).
  destruct f as [|f]; [unfold Py.len in Hf; lia|].
  cbv beta iota fix.
  replace (0 - 1 + Py.len ("(" ++ J ++ ")") + 1 <? Py.len ("(" ++ J ++ ")")) with false
    by (symmetry; apply Z.ltb_ge; lia).
  rewrite HP. f_equal. f_equal. f_equal. f_equal. lia.
Qed.

Lemma convert_helper_square_witness :
  convert_helper FUEL ("[" ++ "abc" ++ "]") = Some ("(a+b+c)", [(6, 0)]).
Proof.
  apply (convert_helper_square FUEL "abc").
  - simpl. intros [H|[H|[H|[]]]]; discriminate.
  - vm_compute. reflexivity.
Defined.

(** ** automaton.py: [__closure] and [test_word] on the empty word *)

Lemma closure_loop_sound st F fuel : forall d q r st',
  closure_inv st F d q -> closure_loop fuel st d q = Some (r, st') -> closure_inv st F r [].
Proof.
  induction fuel as [|f IH]; intros d q r st' I H.
  - destruct q; simpl in H; [injection H as <- _; exact I|discriminate].
  - destruct q as [|s q]; [simpl in H; injection H as <- _; exact I|].
    rewrite closure_loop_step in H.
    destruct (dict_get Nat.eqb d s) as [ix|] eqn:Hs; [|discriminate].
    pose proof (closure_inv_step st F d s q ix I Hs) as I1.
    destruct (fold_left (closure_push ix) (eps_succ st s) (d, q)) as [d1 q1].
    exact (IH d1 q1 r st' I1 H).
Qed.

Lemma closure_exact_core fuel st d r st' :
  closure fuel st d = Some (r, st') ->
  st' = st /\
  (forall t, indom r t <-> exists s, indom d s /\ eps_reach st s t) /\
  (forall t m, has r t m <-> exists s, has d s m /\ eps_reach st s t).
Proof.
  intros H. split; [exact (closure_store _ _ _ _ _ H)|].
  pose proof (closure_loop_sound st d fuel d (map fst d) r st' (closure_inv_init st d) H) as I.
  split.
  - intros t. split; [apply (ci_dom_sound st d r [] I)|].
    intros [s [Hs [p [Hp Hl]]]]. subst t.
    apply (closure_inv_closed st d r I s p Hp (ci_dom_init st d r [] I s Hs)).
  - intros t m. split; [apply (ci_has_sound st d r [] I)|].
    intros [s [Hs [p [Hp Hl]]]]. subst t.
    apply (closure_inv_closed st d r I s p Hp).
    + apply (ci_dom_init st d r [] I), (has_indom d s m Hs).
    + apply (ci_has_init st d r [] I), Hs.
Qed.

(** Whenever [__closure] finishes, acyclic store or not, its result is
    exact: the states epsilon-reachable from the given ones, each with the
    markers of the given states that reach it. *)
Theorem closure_exact fuel st d r st' :
  closure fuel st d = Some (r, st') ->
  st' = st /\
  (forall t, indom r t <-> exists s, indom d s /\ eps_reach st s t) /\
  (forall t m, has r t m <-> exists s, has d s m /\ eps_reach st s t).
Proof. exact (closure_exact_core fuel st d r st'). Qed.

(** [test_word("")] accepts exactly when the final state is
    epsilon-reachable from the initial one. *)
Theorem test_word_empty fuel st a b st' :
  test_word fuel st a "" = Some (b, st') ->
  b = true <-> eps_reach st (initial a) (final a).
Proof.
  unfold test_word. intros H.
  destruct (closure fuel st [(initial a, [0])]) as [[d st1]|] eqn:C; [|discriminate].
  cbn [Py.chars test_word_loop] in H. injection H as <- _.
  destruct (closure_exact_core _ _ _ _ _ C) as [_ [Hd _]].
  unfold dict_mem. specialize (Hd (final a)). unfold indom in Hd.
  destruct (dict_get Nat.eqb d (final a)) as [v|].
  - split; [intros _|reflexivity].
    destruct (proj1 Hd ltac:(discriminate)) as [s [Hs R]].
    unfold indom in Hs. cbn [dict_get] in Hs.
    destruct (Nat.eqb s (initial a)) eqn:E; [|congruence].
    apply Nat.eqb_eq in E. subst. exact R.
  - split; [discriminate|]. intros R. exfalso. apply (proj2 Hd); [|reflexivity].
    exists (initial a). split; [cbn [dict_get]; rewrite Nat.eqb_refl; discriminate|exact R].
Qed.

Lemma closure_exact_witness :
  closure FUEL ab_star_a_store [(1%nat, [5])] =
    Some ([(1%nat, [5]); (4%nat, [5]); (2%nat, [5]); (5%nat, [5]); (6%nat, [5])],
          ab_star_a_store) /\
  ab_star_a_store = ab_star_a_store /\
  (forall t, indom [(1%nat, [5]); (4%nat, [5]); (2%nat, [5]); (5%nat, [5]); (6%nat, [5])] t <->
     exists s, indom [(1%nat, [5])] s /\ eps_reach ab_star_a_store s t) /\
  (forall t m, has [(1%nat, [5]); (4%nat, [5]); (2%nat, [5]); (5%nat, [5]); (6%nat, [5])] t m <->
     exists s, has [(1%nat, [5])] s m /\ eps_reach ab_star_a_store s t).
Proof.
  split; [vm_compute; reflexivity|].
  apply (closure_exact FUEL ab_star_a_store [(1%nat, [5])]).
  vm_compute. reflexivity.
Defined.

Lemma test_word_empty_witness :
  test_word FUEL ab_star_a_store (mkAutomaton 1 5 false) "" = Some (true, ab_star_a_store) /\
  (true = true <-> eps_reach ab_star_a_store 1 5).
Proof.
  split; [vm_compute; reflexivity|].
  apply (test_word_empty FUEL ab_star_a_store (mkAutomaton 1 5 false) true ab_star_a_store).
  vm_compute. reflexivity.
Defined.

(** ** automaton.py: [__has_epsilon_cycle] and [__is_acyclic] *)

Lemma nset_add_spec x l :
  nset_add x l = if existsb (Nat.eqb x) l then l else (l ++ [x])%list.
Proof. reflexivity. Qed.

Lemma existsb_nat_In x l : existsb (Nat.eqb x) l = true <-> In x l.
Proof.
  rewrite existsb_exists. split.
  - intros [y [Hy E]]. apply Nat.eqb_eq in E. subst. exact Hy.
  - intros H. exists x. split; [exact H|apply Nat.eqb_refl].
Qed.

Lemma In_nset_add y x l : In y (nset_add x l) <-> y = x \/ In y l.
Proof.
  rewrite nset_add_spec. destruct (existsb (Nat.eqb x) l) eqn:E.
  - apply existsb_nat_In in E. split; [auto|]. intros [->|H]; auto.
  - rewrite in_app_iff. cbn [In]. intuition.
Qed.

Lemma eps_topo_nil st : eps_topo st [].
Proof. intros l1 x l2 H. destruct l1; discriminate. Qed.

Lemma eps_topo_snoc st l x :
  eps_topo st l -> (forall y, In y (eps_succ st x) -> In y l) -> eps_topo st (l ++ [x])%list.
Proof.
  intros T Hx l1 x' l2 E y Hy. destruct l2 as [|z l2'] using rev_ind.
  - apply app_inj_tail in E. destruct E as [-> ->]. exact (Hx y Hy).
  - rewrite app_comm_cons, app_assoc in E. apply app_inj_tail in E. destruct E as [E _].
    exact (T l1 x' l2' E y Hy).
Qed.

Lemma eps_topo_nset_add st l x :
  eps_topo st l -> (forall y, In y (eps_succ st x) -> In y l) -> eps_topo st (nset_add x l).
Proof.
  intros T Hx. rewrite nset_add_spec. destruct (existsb (Nat.eqb x) l); [exact T|].
  apply eps_topo_snoc; assumption.
Qed.

Lemma eps_topo_prefix st l1 l2 : eps_topo st (l1 ++ l2)%list -> eps_topo st l1.
Proof.
  intros T a x b E y Hy. apply (T a x (b ++ l2)%list); [|exact Hy].
  rewrite E, <- app_assoc. reflexivity.
Qed.

Lemma eps_topo_closed st l : eps_topo st l ->
  forall p y, In y l -> eps_path st y p -> forall z, In z p -> In z l.
Proof.
  intros T p. induction p as [|t p IH]; intros y Hy Hp z Hz; [destruct Hz|].
  destruct Hp as [Ht Hp].
  assert (Htl : In t l).
  { destruct (in_split y l Hy) as [l1 [l2 E]].
    rewrite E. apply in_app_iff. left. exact (T l1 y l2 E t Ht). }
  destruct Hz as [<-|Hz]; [exact Htl|exact (IH t Htl Hp z Hz)].
Qed.

Lemma in_split_first (x : nat) l :
  In x l -> exists l1 l2, l = (l1 ++ x :: l2)%list /\ ~ In x l1.
Proof.
  induction l as [|y l IH]; intros H; [destruct H|].
  destruct (Nat.eq_dec y x) as [<-|Hne].
  - exists [], l. split; [reflexivity|intros []].
  - destruct H as [<-|H]; [congruence|].
    destruct (IH H) as [l1 [l2 [E Hn]]]. exists (y :: l1), l2. split.
    + rewrite E. reflexivity.
    + intros [E'|H']; [congruence|exact (Hn H')].
Qed.

Lemma eps_topo_acyclic st l :
  eps_topo st l -> forall x p, In x l -> eps_path st x p -> ~ In x p.
Proof.
  intros T x p Hx Hp Hin.
  destruct (in_split_first x l Hx) as [l1 [l2 [E Hn]]].
  destruct p as [|t p]; [destruct Hin|].
  destruct Hp as [Ht Hp].
  assert (Ht1 : In t l1) by exact (T l1 x l2 E t Ht).
  assert (T1 : eps_topo st l1) by (rewrite E in T; exact (eps_topo_prefix _ _ _ T)).
  destruct Hin as [<-|Hin]; [exact (Hn Ht1)|].
  exact (Hn (eps_topo_closed st l1 T1 p t Ht1 Hp x Hin)).
Qed.

Lemma has_epsilon_cycle_false fuel st : forall node vis pr vis' pr',
  eps_topo st pr ->
  has_epsilon_cycle fuel st node vis pr = Some (false, vis', pr') ->
  eps_topo st pr' /\ In node pr' /\ exists e, pr' = (pr ++ e)%list.
Proof.
  induction fuel as [|f IH]; intros node vis pr vis' pr' T H; [discriminate|].
  cbn [has_epsilon_cycle] in H.
  match type of H with ?L (st_get st node EPSILON []) _ _ = _ =>
    assert (HL : forall ns v p v2 p2, eps_topo st p -> L ns v p = Some (false, v2, p2) ->
              exists pe, eps_topo st pe /\ (forall y, In y ns -> In y pe) /\
                (exists e, pe = (p ++ e)%list) /\ p2 = nset_add node pe);
    [|destruct (HL _ _ _ _ _ T H) as [pe [Te [Hns [[e ->] ->]]]]] end.
  - induction ns as [|nbh ns IHns]; intros v p v2 p2 Tp Hl; cbv beta iota fix in Hl.
    + injection Hl as <- <-. exists p. split; [exact Tp|]. split; [intros y []|].
      split; [exists []; symmetry; apply app_nil_r|reflexivity].
    + fold (nset_mem nbh p) in Hl.
      destruct (nset_mem nbh p) eqn:M1.
      * destruct (IHns v p v2 p2 Tp Hl) as [pe [Te [Hs [Hx Hp2]]]].
        exists pe. split; [exact Te|]. split; [|split; assumption].
        intros y [<-|Hy]; [|auto].
        destruct Hx as [e ->]. apply in_app_iff. left.
        unfold nset_mem in M1. apply existsb_nat_In in M1. exact M1.
      * destruct (nset_mem nbh v); [discriminate|].
        destruct (has_epsilon_cycle f st nbh v p) as [[[b v1] p1]|] eqn:R; [|discriminate].
        destruct b; [discriminate|].
        destruct (IH nbh v p v1 p1 Tp R) as [T1 [Hn1 [e1 ->]]].
        destruct (IHns _ _ _ _ T1 Hl) as [pe [Te [Hs [[e2 ->] Hp2]]]].
        exists ((p ++ e1) ++ e2)%list. split; [exact Te|]. split.
        -- intros y [<-|Hy]; [|auto]. apply in_app_iff. left. exact Hn1.
        -- split; [exists (e1 ++ e2)%list; symmetry; apply app_assoc|exact Hp2].
  - split.
    + apply eps_topo_nset_add; [exact Te|]. exact Hns.
    + split; [apply In_nset_add; left; reflexivity|].
      rewrite nset_add_spec. destruct (existsb (Nat.eqb node) (pr ++ e)).
      * exists e. reflexivity.
      * exists (e ++ [node])%list. symmetry; apply app_assoc.
Qed.

Lemma is_acyclic_sound_core fuel st a :
  is_acyclic fuel st a = Some true ->
  forall s p, succ_reach st (initial a) s -> eps_path st s p -> ~ In s p.
Proof.
  unfold is_acyclic. intros H.
  destruct (bfs_generator fuel st a) as [nodes|] eqn:B; [|discriminate].
  destruct (bfs_generator_reachable_core fuel st a nodes B) as [Hr _].
  match type of H with ?L nodes [] [] = _ =>
    assert (HL : forall ns v p, eps_topo st p -> L ns v p = Some true ->
              exists pf, eps_topo st pf /\ forall y, In y ns \/ In y p -> In y pf);
    [|destruct (HL nodes [] [] (eps_topo_nil st) H) as [pf [Tf Hf]]] end.
  - induction ns as [|n ns IHns]; intros v p Tp Hl; cbv beta iota fix in Hl.
    + exists p. split; [exact Tp|]. intros y [[]|Hy]. exact Hy.
    + fold (nset_mem n p) in Hl. destruct (nset_mem n p) eqn:M.
      * destruct (IHns v p Tp Hl) as [pf [Tf Hf]]. exists pf. split; [exact Tf|].
        intros y [[<-|Hy]|Hy]; apply Hf; auto.
        right. unfold nset_mem in M. apply existsb_nat_In in M. exact M.
      * destruct (has_epsilon_cycle fuel st n v p) as [[[b v1] p1]|] eqn:R; [|discriminate].
        destruct b; [discriminate|].
        destruct (has_epsilon_cycle_false fuel st n v p v1 p1 Tp R) as [T1 [Hn1 [e ->]]].
        destruct (IHns v1 (p ++ e)%list T1 Hl) as [pf [Tf Hf]]. exists pf. split; [exact Tf|].
        intros y [[<-|Hy]|Hy]; apply Hf; auto; right; apply in_app_iff; auto.
  - intros s p Hs. apply (eps_topo_acyclic st pf Tf). apply Hf. left. apply Hr. exact Hs.
Qed.

(** When [__is_acyclic] answers [True], no state reachable from the initial
    state lies on a cycle of epsilon edges. *)
Theorem is_acyclic_sound fuel st a :
  is_acyclic fuel st a = Some true ->
  forall s p, succ_reach st (initial a) s -> eps_path st s p -> ~ In s p.
Proof. exact (is_acyclic_sound_core fuel st a). Qed.

Lemma is_acyclic_sound_witness :
  is_acyclic FUEL ab_star_a_store (mkAutomaton 0 7 false) = Some true /\
  forall s p, succ_reach ab_star_a_store 0 s -> eps_path ab_star_a_store s p -> ~ In s p.
Proof.
  split; [vm_compute; reflexivity|].
  apply (is_acyclic_sound FUEL ab_star_a_store (mkAutomaton 0 7 false)).
  vm_compute. reflexivity.
Defined.

(** ** automaton.py: [build_from_regex] *)

(** With [check_correctness], [build_from_regex] only returns automata in
    which no reachable state lies on an epsilon cycle. *)
Theorem build_checked_acyclic fuel st regex a st' :
  build_from_regex fuel st regex true = Some (a, st') ->
  forall s p, succ_reach st' (initial a) s -> eps_path st' s p -> ~ In s p.
Proof.
  unfold build_from_regex. intros H.
  destruct (regex_iterator fuel regex) as [canon|]; [|discriminate].
  destruct (next_char _) as [[u ps]|]; [|discriminate].
  destruct (p_expr fuel ps) as [[a' ps']|]; [|discriminate].
  destruct (is_acyclic fuel (ps_store ps') a') as [ok|] eqn:A; [|discriminate].
  destruct ok; [|discriminate]. injection H as <- <-.
  exact (is_acyclic_sound_core fuel (ps_store ps') a' A).
Qed.

Lemma build_checked_acyclic_witness :
  build_from_regex FUEL [] "ab*a" true = Some (mkAutomaton 0 7 false, ab_star_a_store) /\
  forall s p, succ_reach ab_star_a_store 0 s -> eps_path ab_star_a_store s p -> ~ In s p.
Proof.
  split; [vm_compute; reflexivity|].
  apply (build_checked_acyclic FUEL [] "ab*a" (mkAutomaton 0 7 false) ab_star_a_store).
  vm_compute. reflexivity.
Defined.

(** ** automaton.py: [__has_epsilon_cycle] and [__is_acyclic], the other answer *)

Lemma dict_get_label_incl (t : table) l v :
  dict_get String.eqb t l = Some v -> incl v (flat_map snd t).
Proof.
  induction t as [|[k w] t IH]; cbn [dict_get]; [discriminate|].
  destruct (String.eqb l k); intros H x Hx; cbn [flat_map snd]; apply in_app_iff.
  - injection H as <-. left. exact Hx.
  - right. exact (IH H x Hx).
Qed.

Lemma eps_succ_successors st s : incl (eps_succ st s) (successors st s).
Proof.
  unfold eps_succ, st_get, successors.
  destruct (dict_get String.eqb (state_table st s) EPSILON) as [v|] eqn:E.
  - exact (dict_get_label_incl _ _ _ E).
  - intros x [].
Qed.

Lemma eps_path_succ_reach st x y p :
  succ_reach st x y -> eps_path st y p -> succ_reach st x (last p y).
Proof.
  revert y. induction p as [|t p IH]; intros y Hy Hp; [exact Hy|].
  destruct Hp as [Ht Hp]. rewrite last_cons_default. apply IH; [|exact Hp].
  apply succ_reach_step with y; [exact Hy|exact (eps_succ_successors st y t Ht)].
Qed.

Lemma eps_reach_cons st x y z :
  In y (eps_succ st x) -> eps_reach st y z -> eps_reach st x z.
Proof.
  intros Hy [p [Hp Hl]]. exists (y :: p). split; [split; assumption|].
  rewrite last_cons_default. exact Hl.
Qed.

Lemma eps_reach_back_cycle st x y :
  eps_reach st y x -> In y (eps_succ st x) -> exists p, eps_path st y p /\ In y p.
Proof.
  intros [p [Hp Hl]] Hy. exists (p ++ [y])%list. split.
  - apply eps_path_app. split; [exact Hp|]. rewrite Hl. simpl. auto.
  - apply in_app_iff. right. left. reflexivity.
Qed.

(** The search from [node]: every visited state not yet processed reaches
    [node] along epsilon edges. A [True] answer comes with an epsilon cycle
    reachable from [node]; a [False] answer processes [node] and leaves
    nothing newly visited unprocessed. *)
Lemma has_epsilon_cycle_spec fuel st : forall node vis pr b vis' pr',
  (forall v, In v vis -> ~ In v pr -> eps_reach st v node) ->
  has_epsilon_cycle fuel st node vis pr = Some (b, vis', pr') ->
  if b then exists x p, eps_reach st node x /\ eps_path st x p /\ In x p
  else incl pr pr' /\ In node pr' /\ forall v, In v vis' -> In v vis \/ In v pr'.
Proof.
  induction fuel as [|f IH]; intros node vis pr b vis' pr' Inv H; [discriminate|].
  cbn [has_epsilon_cycle] in H.
  match type of H with ?L (st_get st node EPSILON []) _ _ = _ =>
    assert (HL : forall ns v p, incl ns (eps_succ st node) ->
              (forall w, In w v -> ~ In w p -> eps_reach st w node) ->
              incl pr p -> (forall w, In w v -> In w vis \/ w = node \/ In w p) ->
              L ns v p = Some (b, vis', pr') ->
              if b then exists x q, eps_reach st node x /\ eps_path st x q /\ In x q
              else incl pr pr' /\ In node pr' /\ forall w, In w vis' -> In w vis \/ In w pr');
    [|refine (HL _ _ _ (incl_refl _) _ (incl_refl _) _ H)] end.
  - induction ns as [|nbh ns IHns]; intros v p Hns Iv Hp Hv Hl; cbv beta iota fix in Hl.
    + injection Hl as <- <- <-. split; [|split].
      * intros x Hx. apply In_nset_add. right. exact (Hp x Hx).
      * apply In_nset_add. left. reflexivity.
      * intros w Hw. destruct (Hv w Hw) as [H1|[->|H1]]; [left; exact H1|right..].
        -- apply In_nset_add. left. reflexivity.
        -- apply In_nset_add. right. exact H1.
    + assert (Hnb : In nbh (eps_succ st node)) by (apply Hns; left; reflexivity).
      assert (Hns' : incl ns (eps_succ st node)) by (intros y Hy; apply Hns; right; exact Hy).
      fold (nset_mem nbh p) in Hl. destruct (nset_mem nbh p) eqn:M1.
      { exact (IHns v p Hns' Iv Hp Hv Hl). }
      fold (nset_mem nbh v) in Hl. destruct (nset_mem nbh v) eqn:M2.
      { injection Hl as <- <- <-. exists nbh.
        unfold nset_mem in M1, M2. apply existsb_nat_In in M2.
        assert (Hn1 : ~ In nbh p) by (intros Hc; apply existsb_nat_In in Hc; congruence).
        destruct (eps_reach_back_cycle st node nbh (Iv nbh M2 Hn1) Hnb) as [q Hq].
        exists q. split; [|exact Hq].
        apply (eps_reach_cons st node nbh nbh Hnb). exists []. split; [exact I|reflexivity]. }
      destruct (has_epsilon_cycle f st nbh v p) as [[[b1 v1] p1]|] eqn:R; [|discriminate].
      assert (Iv' : forall w, In w v -> ~ In w p -> eps_reach st w nbh)
        by (intros w Hw Hn; apply eps_reach_step with node; [exact (Iv w Hw Hn)|exact Hnb]).
      pose proof (IH nbh v p b1 v1 p1 Iv' R) as Hc. destruct b1.
      { injection Hl as <- <- <-. destruct Hc as [x [q [Hx Hq]]].
        exists x, q. split; [exact (eps_reach_cons st node nbh x Hnb Hx)|exact Hq]. }
      destruct Hc as [Hp1 [Hnb1 Hv1]].
      apply (IHns (nset_add nbh v1) p1 Hns').
      * intros w Hw Hn. apply In_nset_add in Hw. destruct Hw as [->|Hw]; [contradiction|].
        destruct (Hv1 w Hw) as [Hw'|Hw']; [|contradiction].
        apply Iv; [exact Hw'|intros Hc; exact (Hn (Hp1 w Hc))].
      * intros x Hx. exact (Hp1 x (Hp x Hx)).
      * intros w Hw. apply In_nset_add in Hw. destruct Hw as [->|Hw]; [right; right; exact Hnb1|].
        destruct (Hv1 w Hw) as [Hw'|Hw']; [|right; right; exact Hw'].
        destruct (Hv w Hw') as [H1|[H1|H1]]; [left; exact H1|right; left; exact H1|].
        right; right. exact (Hp1 w H1).
      * exact Hl.
  - intros w Hw Hn. apply In_nset_add in Hw. destruct Hw as [->|Hw].
    + exists []. split; [exact I|reflexivity].
    + exact (Inv w Hw Hn).
  - intros w Hw. apply In_nset_add in Hw. destruct Hw as [->|Hw]; [right; left; reflexivity|].
    left. exact Hw.
Qed.

(** When [__is_acyclic] answers [False], some state reachable from the
    initial state lies on a cycle of epsilon edges: with [is_acyclic_sound],
    the check is exact. *)
Theorem is_acyclic_complete fuel st a :
  is_acyclic fuel st a = Some false ->
  exists s p, succ_reach st (initial a) s /\ eps_path st s p /\ In s p.
Proof.
  unfold is_acyclic. intros H.
  destruct (bfs_generator fuel st a) as [nodes|] eqn:B; [|discriminate].
  destruct (bfs_generator_reachable_core fuel st a nodes B) as [_ Hr].
  match type of H with ?L nodes [] [] = _ =>
    assert (HL : forall ns v p, incl ns nodes -> incl v p -> L ns v p = Some false ->
              exists s q, succ_reach st (initial a) s /\ eps_path st s q /\ In s q);
    [|exact (HL nodes [] [] (incl_refl _) (incl_refl _) H)] end.
  induction ns as [|n ns IHns]; intros v p Hns Hv Hl; cbv beta iota fix in Hl; [discriminate|].
  assert (Hns' : incl ns nodes) by (intros y Hy; apply Hns; right; exact Hy).
  fold (nset_mem n p) in Hl. destruct (nset_mem n p).
  { exact (IHns v p Hns' Hv Hl). }
  destruct (has_epsilon_cycle fuel st n v p) as [[[b v1] p1]|] eqn:R; [|discriminate].
  assert (Inv : forall w, In w v -> ~ In w p -> eps_reach st w n)
    by (intros w Hw Hn; exfalso; exact (Hn (Hv w Hw))).
  pose proof (has_epsilon_cycle_spec fuel st n v p b v1 p1 Inv R) as Hc. destruct b.
  - destruct Hc as [x [q [[r [Hr1 Hr2]] Hq]]]. exists x, q. split; [|exact Hq].
    rewrite <- Hr2. apply eps_path_succ_reach; [|exact Hr1].
    apply Hr. apply Hns. left. reflexivity.
  - destruct Hc as [Hp1 [_ Hv1]]. apply (IHns v1 p1 Hns'); [|exact Hl].
    intros w Hw. destruct (Hv1 w Hw) as [Hw'|Hw']; [exact (Hp1 w (Hv w Hw'))|exact Hw'].
Qed.

Lemma is_acyclic_complete_witness :
  is_acyclic FUEL [[("a", [1%nat])]; [("", [2%nat; 3%nat])]; [("", [0%nat; 3%nat])];
    [("", [4%nat; 5%nat])]; [("", [2%nat; 5%nat])]; []] (mkAutomaton 4 5 false) = Some false /\
  exists s p, succ_reach [[("a", [1%nat])]; [("", [2%nat; 3%nat])]; [("", [0%nat; 3%nat])];
    [("", [4%nat; 5%nat])]; [("", [2%nat; 5%nat])]; []] 4 s /\
    eps_path [[("a", [1%nat])]; [("", [2%nat; 3%nat])]; [("", [0%nat; 3%nat])];
    [("", [4%nat; 5%nat])]; [("", [2%nat; 5%nat])]; []] s p /\ In s p.
Proof.
  split; [vm_compute; reflexivity|].
  apply (is_acyclic_complete FUEL _ (mkAutomaton 4 5 false)).
  vm_compute. reflexivity.
Defined.

(** ** automaton.py: [__trans] follows the transitions of the store *)

Lemma dict_get_nat_In (d : frontier) k v : dict_get Nat.eqb d k = Some v -> In (k, v) d.
Proof.
  induction d as [|[k' v'] d IH]; simpl; [discriminate|].
  destruct (Nat.eqb k k') eqn:E; intros H.
  - apply Nat.eqb_eq in E. injection H as <-. subst. auto.
  - right. auto.
Qed.

Lemma dict_set_nat_In (d : frontier) k v k0 v0 :
  In (k0, v0) (dict_set Nat.eqb d k v) -> (k0 = k /\ v0 = v) \/ In (k0, v0) d.
Proof.
  induction d as [|[k' v'] d IH]; cbn [dict_set].
  - intros [E|[]]. injection E as -> ->. auto.
  - destruct (Nat.eqb k k') eqn:E; intros [H|H].
    + injection H as -> ->. apply Nat.eqb_eq in E. subst. auto.
    + right. right. exact H.
    + right. left. exact H.
    + destruct (IH H) as [H'|H']; [left; exact H'|right; right; exact H'].
Qed.

Section TransSources.

Variable st : store.
Variable d : frontier.

Lemma trans_push_explained s ix ts : forall r,
  In (s, ix) d -> incl ts (successors st s) ->
  frontier_explained st d r -> frontier_explained st d (fold_left (trans_push ix) ts r).
Proof.
  induction ts as [|t0 ts IH]; intros r Hd Hts Hr; [exact Hr|].
  cbn [fold_left]. apply IH; [exact Hd|intros y Hy; apply Hts; right; exact Hy|].
  assert (Ht0 : In t0 (successors st s)) by (apply Hts; left; reflexivity).
  intros t ms m Hin Hm. unfold trans_push in Hin.
  destruct (dict_get Nat.eqb r t0) as [old|] eqn:G;
    apply dict_set_nat_In in Hin; destruct Hin as [[-> ->]|Hin]; try exact (Hr _ _ _ Hin Hm).
  - apply In_zunion in Hm. destruct Hm as [Hm|Hm].
    + exact (Hr t0 old m (dict_get_nat_In r t0 old G) Hm).
    + exists s, ix. auto.
  - exists s, ix. auto.
Qed.

Lemma trans_loop_explained (items : frontier) : forall letter res r st',
  incl items d -> frontier_explained st d res ->
  trans_loop st items letter res = (r, st') -> frontier_explained st d r.
Proof.
  induction items as [|[s ix] rest IH]; intros letter res r st' Hi Hres H;
    cbn [trans_loop] in H.
  - injection H as <- _. exact Hres.
  - assert (Hs : In (s, ix) d) by (apply Hi; left; reflexivity).
    assert (Hr : incl rest d) by (intros y Hy; apply Hi; right; exact Hy).
    destruct (trans_label st s letter) as [alt letter'].
    destruct (st_contains st s alt) eqn:C.
    + rewrite st_getitem_contains in H by exact C.
      refine (IH letter' _ r st' Hr _ H).
      apply (trans_push_explained s ix); [exact Hs| |exact Hres].
      unfold st_get, successors.
      destruct (dict_get String.eqb (state_table st s) alt) as [v|] eqn:E.
      * exact (dict_get_label_incl _ _ _ E).
      * intros y [].
    + exact (IH letter' res r st' Hr Hres H).
Qed.

End TransSources.

(** Every state of the frontier that [__trans] returns is the target of a
    transition of a state of the given frontier, and each of its markers was
    a marker of such a state: [__trans] only moves markers along edges. *)
Theorem trans_follows_edges st (d : frontier) letter r st' :
  trans st d letter = (r, st') ->
  forall t ms m, In (t, ms) r -> In m ms ->
  exists s ix, In (s, ix) d /\ In t (successors st s) /\ In m ix.
Proof.
  unfold trans. intros H.
  refine (trans_loop_explained st d d letter [] r st' (incl_refl _) _ H).
  intros t ms m [].
Qed.

Lemma trans_follows_edges_witness :
  trans ab_star_a_store [(6%nat, [0; 3])] "a" = ([(7%nat, [0; 3])], ab_star_a_store) /\
  exists s ix, In (s, ix) [(6%nat, [0; 3])] /\ In 7%nat (successors ab_star_a_store s) /\ In 3 ix.
Proof.
  split; [vm_compute; reflexivity|].
  refine (trans_follows_edges ab_star_a_store [(6%nat, [0; 3])] "a" [(7%nat, [0; 3])]
    ab_star_a_store _ 7%nat [0; 3] 3 _ _); [vm_compute; reflexivity|simpl; auto|simpl; auto].
Defined.
